(** * SpringEmbeddersGPUAlgorithm: grid encoding and per-tick update

    A shallow embedding of [src/js/SpringEmbeddersGPUAlgorithm.js].

    Conventions of the model.
    - A JavaScript number is a [jsnum]: an exact rational, [NaN] or one of
      the two infinities.  Arithmetic on finite numbers is exact: IEEE-754
      rounding and the sign of zero are outside the model.
    - Array lengths, loop counters and the adjacency cursor are naturals.
    - Node objects live in a store ([heap]) addressed by reference, so that
      [indexOf] compares identities and the mutations of [setGraph] and of
      the write-back loop are visible through every alias.
    - A call that throws returns [Throw TypeError], or [Throw LibraryError]
      when the GPU library raises; a step that JavaScript would accept but
      that leaves the array model (a write that extends a row, a non-index
      property) returns [Throw Unmodelled].
    - The GPU library is not part of the class.  Of its behaviour the
      model keeps this: a kernel is compiled at its first call, with the
      constants it is given then, and later changes of [constants] do not
      reach the compiled kernel; an empty output is refused; a call runs
      the kernel function once per output cell.  The library returns
      single-precision numbers; the model keeps them exact. *)

From Stdlib Require Import ZArith QArith Qround Qreduction Qcanon.
From Stdlib Require Import Lia Lqa String.
From stdpp Require Import base option list.

Local Open Scope Z_scope.
Local Open Scope Q_scope.
Local Open Scope nat_scope.

(** ** JavaScript numbers *)

Inductive jsnum : Type :=
| Fin (q : Q)
| NaN
| PInf
| NInf.

Definition fin (q : Q) : jsnum := Fin (Qred q).

Definition of_Z (z : Z) : jsnum := Fin (inject_Z z).
Definition of_nat (n : nat) : jsnum := of_Z (Z.of_nat n).

Definition Qis_zero (q : Q) : bool := (Qnum q =? 0)%Z.
Definition Qis_neg (q : Q) : bool := (Qnum q <? 0)%Z.

(** [a + b] *)
Definition jadd (a b : jsnum) : jsnum :=
  match a, b with
  | Fin p, Fin q => fin (p + q)
  | NaN, _ | _, NaN => NaN
  | PInf, NInf | NInf, PInf => NaN
  | PInf, _ | _, PInf => PInf
  | NInf, _ | _, NInf => NInf
  end.

Definition jneg (a : jsnum) : jsnum :=
  match a with
  | Fin p => fin (- p)
  | NaN => NaN
  | PInf => NInf
  | NInf => PInf
  end.

(** [a - b] *)
Definition jsub (a b : jsnum) : jsnum := jadd a (jneg b).

Definition inf_signed (negative : bool) : jsnum :=
  if negative then NInf else PInf.

(** [a * b] *)
Definition jmul (a b : jsnum) : jsnum :=
  match a, b with
  | Fin p, Fin q => fin (p * q)
  | NaN, _ | _, NaN => NaN
  | Fin p, PInf | PInf, Fin p =>
      if Qis_zero p then NaN else inf_signed (Qis_neg p)
  | Fin p, NInf | NInf, Fin p =>
      if Qis_zero p then NaN else inf_signed (negb (Qis_neg p))
  | PInf, PInf | NInf, NInf => PInf
  | PInf, NInf | NInf, PInf => NInf
  end.

(** [a / b] *)
Definition jdiv (a b : jsnum) : jsnum :=
  match a, b with
  | Fin p, Fin q =>
      if Qis_zero q
      then (if Qis_zero p then NaN else inf_signed (Qis_neg p))
      else fin (p / q)
  | NaN, _ | _, NaN => NaN
  | Fin _, (PInf | NInf) => fin 0
  | PInf, Fin q => inf_signed (Qis_neg q)
  | NInf, Fin q => inf_signed (negb (Qis_neg q))
  | (PInf | NInf), (PInf | NInf) => NaN
  end.

(** [Math.floor(a)] *)
Definition jfloor (a : jsnum) : jsnum :=
  match a with
  | Fin p => of_Z (Qfloor p)
  | other => other
  end.

(** Rounding toward zero, as the quotient of [%] does. *)
Definition Qtrunc (q : Q) : Z :=
  if Qis_neg q then Qceiling q else Qfloor q.

(** [a % b]: the remainder has the sign of the dividend. *)
Definition jrem (a b : jsnum) : jsnum :=
  match a, b with
  | Fin p, Fin q =>
      if Qis_zero q then NaN
      else fin (p - q * inject_Z (Qtrunc (p / q)))
  | Fin p, (PInf | NInf) => Fin p
  | _, _ => NaN
  end.

(** [a < b] on numbers ([false] as soon as one side is [NaN]). *)
Definition jlt (a b : jsnum) : bool :=
  match a, b with
  | Fin p, Fin q => if Qlt_le_dec p q then true else false
  | NaN, _ | _, NaN => false
  | NInf, (Fin _ | PInf) => true
  | Fin _, PInf => true
  | _, _ => false
  end.

(** The array index a number denotes, when it denotes one. *)
Definition to_index (a : jsnum) : option nat :=
  match a with
  | Fin q =>
      let r := Qred q in
      if ((Qden r =? 1)%positive && (0 <=? Qnum r)%Z)%bool
      then Some (Z.to_nat (Qnum r)) else None
  | _ => None
  end.

(** ** Outcomes of a call *)

Inductive error : Type := TypeError | LibraryError | Unmodelled.

Inductive result (A : Type) : Type :=
| Ok (a : A)
| Throw (e : error).
Arguments Ok {A} a.
Arguments Throw {A} e.

#[global] Instance result_ret : MRet result := fun A a => Ok a.
#[global] Instance result_bind : MBind result := fun A B k r =>
  match r with
  | Ok a => k a
  | Throw e => Throw e
  end.

(** ** Arrays and grids *)

(** A grid cell is the fill value itself or an array of numbers. *)
Inductive cell : Type :=
| Scalar (v : jsnum)
| Arr (l : list jsnum).

Abbreviation matrix := (list (list cell)).

(** [m[r][c] = v].  [m[r]] undefined makes the assignment throw. *)
Definition matrix_set (m : matrix) (r c : jsnum) (v : cell) : result matrix :=
  match to_index r with
  | None => Throw TypeError
  | Some i =>
      match m !! i with
      | None => Throw TypeError
      | Some row =>
          match to_index c with
          | None => Throw Unmodelled
          | Some j =>
              if j <? length row
              then Ok (<[i := <[j := v]> row]> m)
              else Throw Unmodelled
          end
      end
  end.

(** ** The graph collaborator *)

Definition ref : Type := nat.

Record Node : Type := mkNode {
  node_x : jsnum;
  node_y : jsnum;
  isFixed : bool;
  neighbours : list ref
}.

Definition heap : Type := ref -> Node.

Definition heap_set (h : heap) (r : ref) (n : Node) : heap :=
  fun r' => if decide (r' = r) then n else h r'.

Record Graph : Type := mkGraph { nodes : list ref }.

(** [array.indexOf(item)]: the first position holding the same object,
    [-1] when there is none. *)
Fixpoint indexOf_from (i : nat) (l : list ref) (item : ref) : Z :=
  match l with
  | [] => (-1)%Z
  | r :: rest =>
      if decide (r = item) then Z.of_nat i else indexOf_from (S i) rest item
  end.

Definition indexOf (l : list ref) (item : ref) : Z := indexOf_from 0 l item.

(** ** Values of the configuration record *)

Inductive jsval : Type :=
| VUndefined
| VNull
| VBool (b : bool)
| VNum (n : jsnum)
| VStr (s : string).

Definition truthy (v : jsval) : bool :=
  match v with
  | VUndefined | VNull => false
  | VBool b => b
  | VNum (Fin q) => negb (Qis_zero q)
  | VNum NaN => false
  | VNum (PInf | NInf) => true
  | VStr s => negb (String.eqb s EmptyString)
  end.

(** [a || b] *)
Definition jsor (a b : jsval) : jsval := if truthy a then a else b.

Record Properties : Type := mkProperties {
  speed : jsval;
  springDampening : jsval;
  springRestLength : jsval;
  charge : jsval
}.

(** ** The engine object *)

(** The kernel made by [_createKernel]: its output side, the field
    [constants.speed] of the kernel object, and the value of that
    constant in the compiled kernel, once the library has compiled it. *)
Record Kernel : Type := mkKernel {
  outputSize : nat;
  constants_speed : jsnum;
  compiled_speed : option jsnum
}.

(** What [this.constants.speed] reads inside the kernel function. *)
Definition kernel_constant (k : Kernel) : jsnum :=
  default (constants_speed k) (compiled_speed k).

(** [constants.speed += 3] and [setConstants] (lines 184-185), followed
    by the compilation that a first call performs. *)
Definition tick_kernel (k : Kernel) : Kernel :=
  let speed := jadd (constants_speed k) (of_nat 3) in
  mkKernel (outputSize k) speed (Some (default speed (compiled_speed k))).

Record Algo : Type := mkAlgo {
  _graph : option Graph;
  _width : jsnum;
  _height : jsnum;
  _speed : jsval;
  _springRestLength : jsval;
  _springDampening : jsval;
  _charge : jsval;
  _positionsMatrix : matrix;
  _adjacencyMatrix : matrix;
  _nodesMatrix : matrix;
  _kernel : option Kernel
}.

(** The world a method runs in: the node store, the engine and the number
    of [Math.random()] draws made so far. *)
Record World : Type := mkWorld {
  store : heap;
  this : Algo;
  draws : nat
}.

Definition setProperties (a : Algo) (properties : Properties) : Algo :=
  mkAlgo (_graph a) (_width a) (_height a)
    (jsor (speed properties) (_speed a))
    (jsor (springRestLength properties) (_springRestLength a))
    (jsor (springDampening properties) (_springDampening a))
    (jsor (charge properties) (_charge a))
    (_positionsMatrix a) (_adjacencyMatrix a) (_nodesMatrix a) (_kernel a).

(** A call [setProperties(arg)]: without a record ([undefined] or
    [null]) reading [properties.speed] throws. *)
Definition setProperties_call (a : Algo) (arg : option Properties)
  : result Algo :=
  match arg with
  | None => Throw TypeError
  | Some properties => Ok (setProperties a properties)
  end.

Definition _createKernel (a : Algo) : Algo :=
  let outputSize := length (_nodesMatrix a) in
  mkAlgo (_graph a) (_width a) (_height a)
    (_speed a) (_springRestLength a) (_springDampening a) (_charge a)
    (_positionsMatrix a) (_adjacencyMatrix a) (_nodesMatrix a)
    (Some (mkKernel outputSize (of_nat 3) None)).

(** The function handed to [gpu.createKernel], at thread
    [(y, x) = (row, col)].  A component missing from the cell reads as
    [undefined], and [undefined + number] is [NaN]. *)
Definition kernel_function (k : Kernel) (positions : matrix) (row col : nat)
  : result cell :=
  match positions !! row with
  | None => Throw TypeError
  | Some therow =>
      match therow !! col with
      | None | Some (Scalar _) => Throw TypeError
      | Some (Arr l) =>
          Ok (Arr [jadd (nth 0 l NaN) (kernel_constant k);
                   jadd (nth 1 l NaN) (Fin 0.1)])
      end
  end.

Fixpoint mapR {A B} (f : A -> result B) (l : list A) : result (list B) :=
  match l with
  | [] => Ok []
  | a :: rest => b ← f a; bs ← mapR f rest; Ok (b :: bs)
  end.

(** Running the kernel: one call of its function per cell of the
    [outputSize] x [outputSize] output; the library raises on an empty
    output. *)
Definition run_kernel (k : Kernel) (positions : matrix) : result matrix :=
  if outputSize k =? 0 then Throw LibraryError
  else
    mapR (fun row => mapR (fun col => kernel_function k positions row col)
                       (seq 0 (outputSize k)))
         (seq 0 (outputSize k)).

Definition _create3dMatrix (rows columns depth : nat) (defaultValue : jsnum)
  : matrix :=
  replicate rows
    (if depth =? 1 then replicate columns (Scalar defaultValue)
     else if 1 <? depth
          then replicate columns (Arr (replicate depth defaultValue))
          else []).

Definition _indexToMatrixCoordinates (index rows columns : jsnum)
  : jsnum * jsnum :=
  let row := jfloor (jdiv index rows) in
  let col := jrem index columns in
  (row, col).

(** [Math.ceil(Math.sqrt(n))] of an array length: the least [s] with
    [n <= s * s]. *)
Definition ceil_sqrt (n : nat) : nat :=
  let s := Nat.sqrt n in
  if s * s =? n then s else S s.

(** ** Building the three grids *)

(** The callback of [currentNode.neighbours.forEach], threaded over the
    cursor [adjMatrixNextFreeSpotIndex] and the adjacency grid. *)
Fixpoint forEach_neighbour (graph_nodes : list ref)
    (nodesMatrixSize adjacencyMatrixSize : nat) (todo : list ref)
    (adjMatrixNextFreeSpotIndex : nat) (adjacencyMatrix : matrix)
  : result (nat * matrix) :=
  match todo with
  | [] => Ok (adjMatrixNextFreeSpotIndex, adjacencyMatrix)
  | neighbour :: rest =>
      let '(adjX, adjY) :=
        _indexToMatrixCoordinates (of_nat adjMatrixNextFreeSpotIndex)
          (of_nat adjacencyMatrixSize) (of_nat adjacencyMatrixSize) in
      let neighbourIndex := indexOf graph_nodes neighbour in
      let '(nbX, nbY) :=
        _indexToMatrixCoordinates (of_Z neighbourIndex)
          (of_nat nodesMatrixSize) (of_nat nodesMatrixSize) in
      adjacencyMatrix' ←
        matrix_set adjacencyMatrix adjX adjY (Arr [nbX; nbY]);
      forEach_neighbour graph_nodes nodesMatrixSize adjacencyMatrixSize rest
        (S adjMatrixNextFreeSpotIndex) adjacencyMatrix'
  end.

(** What the [for] loop over the nodes carries from one node to the next. *)
Record Grids : Type := mkGrids {
  cursor : nat;
  nodesGrid : matrix;
  adjacencyGrid : matrix;
  positionsGrid : matrix
}.

(** The [for (let i = 0; i < graph.nodes.length; i++)] loop, from index
    [i] on; [todo] is what is left of [graph.nodes]. *)
Fixpoint for_each_node (h : heap) (graph_nodes : list ref)
    (nodesMatrixSize adjacencyMatrixSize : nat) (i : nat) (todo : list ref)
    (st : Grids) : result Grids :=
  match todo with
  | [] => Ok st
  | r :: rest =>
      let currentNode := h r in
      let '(adjX, adjY) :=
        _indexToMatrixCoordinates (of_nat (cursor st))
          (of_nat adjacencyMatrixSize) (of_nat adjacencyMatrixSize) in
      let '(nodeX, nodeY) :=
        _indexToMatrixCoordinates (of_nat i)
          (of_nat nodesMatrixSize) (of_nat nodesMatrixSize) in
      nodesMatrix ← matrix_set (nodesGrid st) nodeX nodeY
        (Arr [adjX; adjY; of_nat (length (neighbours currentNode))]);
      positionsMatrix ← matrix_set (positionsGrid st) nodeX nodeY
        (Arr [node_x currentNode; node_y currentNode]);
      '(next, adjacencyMatrix) ←
        forEach_neighbour graph_nodes nodesMatrixSize adjacencyMatrixSize
          (neighbours currentNode) (cursor st) (adjacencyGrid st);
      for_each_node h graph_nodes nodesMatrixSize adjacencyMatrixSize (S i) rest
        (mkGrids next nodesMatrix adjacencyMatrix positionsMatrix)
  end.

Definition totalNumberOfEdges (h : heap) (graph : Graph) : nat :=
  foldl (fun total current => total + current) 0
    (map (fun r => length (neighbours (h r))) (nodes graph)).

Definition nodesMatrixSize (graph : Graph) : nat :=
  ceil_sqrt (length (nodes graph)).

Definition adjacencyMatrixSize (h : heap) (graph : Graph) : nat :=
  ceil_sqrt (totalNumberOfEdges h graph).

(** The grids of a graph, with the final value of the cursor. *)
Definition graph_matrices (h : heap) (graph : Graph) : result Grids :=
  let P := nodesMatrixSize graph in
  let A := adjacencyMatrixSize h graph in
  let nodesMatrix := _create3dMatrix P P 3 (of_Z (-1)) in
  let adjacencyMatrix := _create3dMatrix A A 2 (of_Z (-1)) in
  let positionsMatrix := _create3dMatrix P P 2 (of_Z (-1)) in
  for_each_node h (nodes graph) P A 0 (nodes graph)
    (mkGrids 0 nodesMatrix adjacencyMatrix positionsMatrix).

Definition _createGraphMatrices (h : heap) (a : Algo) : result Algo :=
  match _graph a with
  | None => Throw TypeError
  | Some graph =>
      g ← graph_matrices h graph;
      Ok (mkAlgo (_graph a) (_width a) (_height a)
            (_speed a) (_springRestLength a) (_springDampening a) (_charge a)
            (positionsGrid g) (adjacencyGrid g) (nodesGrid g) (_kernel a))
  end.

Definition _setUpGPU (h : heap) (a : Algo) : result Algo :=
  a' ← _createGraphMatrices h a;
  Ok (_createKernel a').

(** [width / 2 + (100 * u) - 50], with [u] the value of [Math.random()]. *)
Definition fresh_x (width : jsnum) (u : Q) : jsnum :=
  jsub (jadd (jdiv width (of_nat 2)) (jmul (of_nat 100) (Fin u))) (of_nat 50).

(** [height / 2 + (100 * u - 50)] *)
Definition fresh_y (height : jsnum) (u : Q) : jsnum :=
  jadd (jdiv height (of_nat 2)) (jsub (jmul (of_nat 100) (Fin u)) (of_nat 50)).

(** The callback of [this._graph.nodes.forEach] in [setGraph]; [random n]
    is the value of the [n]-th call of [Math.random()]. *)
Fixpoint randomize_nodes (random : nat -> Q) (width height : jsnum)
    (todo : list ref) (h : heap) (n : nat) : heap * nat :=
  match todo with
  | [] => (h, n)
  | r :: rest =>
      let node :=
        mkNode (fresh_x width (random n)) (fresh_y height (random (S n)))
          false (neighbours (h r)) in
      randomize_nodes random width height rest (heap_set h r node) (S (S n))
  end.

Definition setGraph (random : nat -> Q) (w : World) (graph : Graph)
  : result World :=
  let a := this w in
  let a1 := mkAlgo (Some graph) (_width a) (_height a)
              (_speed a) (_springRestLength a) (_springDampening a) (_charge a)
              (_positionsMatrix a) (_adjacencyMatrix a) (_nodesMatrix a)
              (_kernel a) in
  let '(h, n) :=
    randomize_nodes random (_width a1) (_height a1) (nodes graph)
      (store w) (draws w) in
  a2 ← _setUpGPU h a1;
  Ok (mkWorld h a2 n).

(** The fields as the constructor sets them before it calls [setGraph]. *)
Definition fresh_engine (width height : jsnum) : Algo :=
  mkAlgo None width height
    (VNum (Fin 0.01)) (VNum (of_nat 10))
    (VNum (jdiv (of_nat 1) (of_nat 10)))
    (VNum (jmul (of_nat 150) (of_nat 150)))
    [] [] [] None.

(** [new SpringEmbeddersGPUAlgorithm(graph, width, height)], in store [h]
    after [n] draws of [Math.random()]. *)
Definition new (random : nat -> Q) (h : heap) (n : nat)
    (graph : Graph) (width height : jsnum) : result World :=
  setGraph random (mkWorld h (fresh_engine width height) n) graph.

Definition onCanvasSizeChanged (a : Algo) (width height : jsnum) : Algo :=
  mkAlgo (_graph a) width height
    (_speed a) (_springRestLength a) (_springDampening a) (_charge a)
    (_positionsMatrix a) (_adjacencyMatrix a) (_nodesMatrix a) (_kernel a).

Definition _clamp (val min max : jsnum) : jsnum :=
  if jlt val min then min else if jlt max val then max else val.

(** ** The per-tick update *)

(** The body of the two nested write-back loops at [(row, col)]. *)
Definition write_back_cell (graph : option Graph) (positions : matrix)
    (rows row col : nat) (h : heap) : result heap :=
  let nodeIndex := row * rows + col in
  match graph with
  | None => Throw TypeError
  | Some g =>
      if nodeIndex <? length (nodes g) then
        match nodes g !! nodeIndex with
        | None => Throw TypeError
        | Some r =>
            match positions !! row ≫= (fun therow => therow !! col) with
            | Some (Arr (vx :: vy :: _)) =>
                Ok (heap_set h r
                      (mkNode vx vy (isFixed (h r)) (neighbours (h r))))
            | Some (Arr _) => Throw Unmodelled
            | Some (Scalar _) | None => Throw TypeError
            end
        end
      else Ok h
  end.

Fixpoint foldR {A S} (f : A -> S -> result S) (l : list A) (s : S)
  : result S :=
  match l with
  | [] => Ok s
  | a :: rest => s' ← f a s; foldR f rest s'
  end.

(** Lines 189-201: the write-back of a position grid onto the nodes. *)
Definition write_back (graph : option Graph) (positions : matrix) (h : heap)
  : result heap :=
  let rows := length positions in
  match positions !! 0 with
  | None => Throw TypeError
  | Some row0 =>
      let columns := length row0 in
      foldR (fun row h1 =>
               foldR (fun col h2 =>
                        write_back_cell graph positions rows row col h2)
                     (seq 0 columns) h1)
            (seq 0 rows) h
  end.

Definition computeNextPositions (w : World) : result World :=
  let a := this w in
  match _kernel a with
  | None => Throw TypeError
  | Some k =>
      let k' := tick_kernel k in
      positions ← run_kernel k' (_positionsMatrix a);
      let a' := mkAlgo (_graph a) (_width a) (_height a)
                  (_speed a) (_springRestLength a) (_springDampening a)
                  (_charge a)
                  positions (_adjacencyMatrix a) (_nodesMatrix a) (Some k') in
      h ← write_back (_graph a') positions (store w);
      Ok (mkWorld h a' (draws w))
  end.

(** ** Vocabulary of the statements *)

(** A grid of side [s]: [s] rows of [s] cells. *)
Definition square (s : nat) (m : matrix) : Prop :=
  length m = s /\ Forall (fun row => length row = s) m.

(** The cell of linear (row-major) index [k] in a grid of side [s]. *)
Definition cell_at (s : nat) (m : matrix) (k : nat) : option cell :=
  m !! (k / s) ≫= fun row => row !! (k mod s).

(** The fill of a fresh grid of depth [d]. *)
Definition fill (d : nat) : cell := Arr (replicate d (of_Z (-1))).

Definition degree (h : heap) (r : ref) : nat := length (neighbours (h r)).

(** The directed neighbour links of a list of nodes, in visiting order. *)
Definition links (h : heap) (l : list ref) : list ref :=
  concat (map (fun r => neighbours (h r)) l).

(** The cursor value at which node [i] of [l] is visited. *)
Definition run_start (h : heap) (l : list ref) (i : nat) : nat :=
  length (links h (take i l)).

(** What the encoder stores for a neighbour: the grid coordinates of its
    position in [graph.nodes]. *)
Definition neighbourCoords (graph_nodes : list ref) (P : nat) (nb : ref)
  : cell :=
  let '(nbX, nbY) :=
    _indexToMatrixCoordinates (of_Z (indexOf graph_nodes nb))
      (of_nat P) (of_nat P) in
  Arr [nbX; nbY].

(** What the encoder stores in the node-index grid for a node visited
    when the cursor is [c]. *)
Definition nodeCell (h : heap) (A : nat) (r : ref) (c : nat) : cell :=
  let '(adjX, adjY) :=
    _indexToMatrixCoordinates (of_nat c) (of_nat A) (of_nat A) in
  Arr [adjX; adjY; of_nat (degree h r)].

Definition positionCell (h : heap) (r : ref) : cell :=
  Arr [node_x (h r); node_y (h r)].

(** [st] is the encoding of [graph] read in store [h]: every node sits at
    its linear index in the node-index and position grids, the links fill
    the first cells of the adjacency grid in visiting order, and all other
    cells keep the fill. *)
Record Encoded (h : heap) (graph : Graph) (st : Grids) : Prop := mkEncoded {
  enc_cursor : cursor st = length (links h (nodes graph));
  enc_nodes_square : square (nodesMatrixSize graph) (nodesGrid st);
  enc_positions_square : square (nodesMatrixSize graph) (positionsGrid st);
  enc_adjacency_square :
    square (adjacencyMatrixSize h graph) (adjacencyGrid st);
  enc_node : forall i r, nodes graph !! i = Some r ->
    cell_at (nodesMatrixSize graph) (nodesGrid st) i
    = Some (nodeCell h (adjacencyMatrixSize h graph) r
              (run_start h (nodes graph) i));
  enc_node_pad : forall k,
    length (nodes graph) <= k < nodesMatrixSize graph * nodesMatrixSize graph ->
    cell_at (nodesMatrixSize graph) (nodesGrid st) k = Some (fill 3);
  enc_position : forall i r, nodes graph !! i = Some r ->
    cell_at (nodesMatrixSize graph) (positionsGrid st) i
    = Some (positionCell h r);
  enc_position_pad : forall k,
    length (nodes graph) <= k < nodesMatrixSize graph * nodesMatrixSize graph ->
    cell_at (nodesMatrixSize graph) (positionsGrid st) k = Some (fill 2);
  enc_link : forall k nb, links h (nodes graph) !! k = Some nb ->
    cell_at (adjacencyMatrixSize h graph) (adjacencyGrid st) k
    = Some (neighbourCoords (nodes graph) (nodesMatrixSize graph) nb);
  enc_link_pad : forall k,
    length (links h (nodes graph)) <= k
      < adjacencyMatrixSize h graph * adjacencyMatrixSize h graph ->
    cell_at (adjacencyMatrixSize h graph) (adjacencyGrid st) k = Some (fill 2)
}.

(** The position grid [pos] stores, at the linear index of every node of
    [graph], the position that node has in store [hv]. *)
Definition holds_positions (graph : Graph) (pos : matrix) (hv : heap) : Prop :=
  square (nodesMatrixSize graph) pos
  /\ forall i r, nodes graph !! i = Some r ->
       cell_at (nodesMatrixSize graph) pos i = Some (positionCell hv r).

(** The store after the cells of linear index below [m] were written
    back: those nodes have the positions of [hv]; nothing else changed
    with respect to [h2]. *)
Definition written_back (g : Graph) (hv h2 : heap) (m : nat) (hc : heap)
  : Prop :=
  (forall i r, i < m -> nodes g !! i = Some r ->
     node_x (hc r) = node_x (hv r) /\ node_y (hc r) = node_y (hv r))
  /\ (forall r, r ∉ nodes g -> hc r = h2 r)
  /\ (forall r, isFixed (hc r) = isFixed (h2 r)
                /\ neighbours (hc r) = neighbours (h2 r)).

(** What the kernel function returns for a cell when its constant is [c]. *)
Definition moved_cell (c : jsnum) (v : cell) : cell :=
  match v with
  | Arr l => Arr [jadd (nth 0 l NaN) c; jadd (nth 1 l NaN) (Fin 0.1)]
  | Scalar n => Scalar n
  end.

(** A node displaced as the kernel displaces its cell. *)
Definition moved (c : jsnum) (n : Node) : Node :=
  mkNode (jadd (node_x n) c) (jadd (node_y n) (Fin 0.1))
    (isFixed n) (neighbours n).

(** The engine holds the grids of a non-empty [graph], its position grid
    stores the positions of [hv], and its kernel is [k]. *)
Record Ready (graph : Graph) (hv : heap) (k : Kernel) (w : World) : Prop :=
  mkReady {
  ready_graph : _graph (this w) = Some graph;
  ready_nonempty : nodes graph <> [];
  ready_kernel : _kernel (this w) = Some k;
  ready_side : outputSize k = nodesMatrixSize graph;
  ready_positions : holds_positions graph (_positionsMatrix (this w)) hv;
  ready_arrays : forall j,
    j < nodesMatrixSize graph * nodesMatrixSize graph ->
    exists l, cell_at (nodesMatrixSize graph) (_positionsMatrix (this w)) j
              = Some (Arr l)
}.

(** [n] successive calls of [computeNextPositions]. *)
Fixpoint ticks (n : nat) (w : World) : result World :=
  match n with
  | 0 => Ok w
  | S n' => w' ← computeNextPositions w; ticks n' w'
  end.

#[global] Instance result_fmap : FMap result := fun A B f r =>
  match r with
  | Ok a => Ok (f a)
  | Throw e => Throw e
  end.

(** The world with the engine's [_speed] blanked: two worlds differ at
    most in [_speed] when their images are equal. *)
Definition forget_speed (w : World) : World :=
  let a := this w in
  mkWorld (store w)
    (mkAlgo (_graph a) (_width a) (_height a)
       VUndefined (_springRestLength a) (_springDampening a) (_charge a)
       (_positionsMatrix a) (_adjacencyMatrix a) (_nodesMatrix a) (_kernel a))
    (draws w).

(** The grids the engine holds, as the encoder returns them. *)
Definition grids_of (a : Algo) (c : nat) : Grids :=
  mkGrids c (_nodesMatrix a) (_adjacencyMatrix a) (_positionsMatrix a).

(** Every neighbour reference of every node of the graph is a node of the
    graph. *)
Definition closed_graph (h : heap) (graph : Graph) : Prop :=
  forall nb, nb ∈ links h (nodes graph) -> nb ∈ nodes graph.

(** Reading [n] cells of a grid of side [A] one after the other from
    [(row, col)], moving to the start of the next row after the last
    column. *)
Fixpoint read_from (adj : matrix) (A : nat) (row col : nat) (n : nat)
  : option (list cell) :=
  match n with
  | 0 => Some []
  | S n' =>
      c ← adj !! row ≫= (fun therow => therow !! col);
      rest ← (if S col <? A then read_from adj A row (S col) n'
              else read_from adj A (S row) 0 n');
      Some (c :: rest)
  end.

(** The neighbour list a reader recovers from a node's cell
    [(adjRow, adjCol, degree)]: [degree] sequential reads.  The class has
    no reader of its own (its kernel never reads the adjacency grid);
    this one is the reader the encoding invariant speaks of. *)
Definition read_run (adj : matrix) (A : nat) (adjRow adjCol : jsnum)
    (degree : nat) : option (list cell) :=
  match degree with
  | 0 => Some []
  | _ =>
      row ← to_index adjRow;
      col ← to_index adjCol;
      read_from adj A row col degree
  end.

(** The collaborator's [node.isFixed = true] on node [r]. *)
Definition pin (w : World) (r : ref) : World :=
  let n := store w r in
  mkWorld
    (heap_set (store w) r
       (mkNode (node_x n) (node_y n) true (neighbours n)))
    (this w) (draws w).

(** Every node of the graph has a finite abscissa. *)
Definition finite_x (graph : Graph) (h : heap) : Prop :=
  forall r, r ∈ nodes graph -> exists q, node_x (h r) = Fin q.

(** ** Sample inputs *)

(** Three nodes: node [0] linked with nodes [1] and [2]. *)
Definition star_store : heap := fun r =>
  match r with
  | 0 => mkNode (of_nat 5) (of_nat 7) false [1; 2]
  | 1 => mkNode (of_nat 1) (of_nat 2) false [0]
  | 2 => mkNode (Fin 0.5) (of_nat 9) false [0]
  | _ => mkNode NaN NaN false []
  end.

Definition star : Graph := mkGraph [0; 1; 2].

(** One node without neighbours. *)
Definition lone_store : heap := fun _ => mkNode (of_nat 0) (of_nat 0) false [].

Definition lone : Graph := mkGraph [0].

Definition halves : nat -> Q := fun _ => 0.5%Q.

(** The engine before [setGraph] runs, on a canvas of 800 x 600. *)
Definition blank : Algo := fresh_engine (of_nat 800) (of_nat 600).

(** ** Vocabulary of the further properties *)

(** The parts of the store a tick leaves alone: nodes outside the graph,
    and the flag and neighbour list of every node. *)
Definition tick_frame (graph : Graph) (h h' : heap) : Prop :=
  (forall r, r ∉ nodes graph -> h' r = h r)
  /\ forall r, isFixed (h' r) = isFixed (h r)
               /\ neighbours (h' r) = neighbours (h r).

(** Two nodes; node [0] lists a neighbour, [5], that the graph does not
    hold. *)
Definition stray_store : heap := fun r =>
  match r with
  | 0 => mkNode (of_nat 3) (of_nat 4) false [5; 1]
  | 1 => mkNode (of_nat 6) (of_nat 8) false [0]
  | _ => mkNode NaN NaN false []
  end.

Definition stray : Graph := mkGraph [0; 1].

(** The world after [onCanvasSizeChanged(width, height)]. *)
Definition resized (width height : jsnum) (w : World) : World :=
  mkWorld (store w) (onCanvasSizeChanged (this w) width height) (draws w).

(** The record a second call's options make with a first call's: an
    option of the second call wins when it is truthy. *)
Definition merged (p1 p2 : Properties) : Properties :=
  mkProperties (jsor (speed p2) (speed p1))
    (jsor (springDampening p2) (springDampening p1))
    (jsor (springRestLength p2) (springRestLength p1))
    (jsor (charge p2) (charge p1)).

(** A source of draws: the [n]-th draw is [n / 10]. *)
Definition tenths : nat -> Q := fun n => (inject_Z (Z.of_nat n) / 10)%Q.

(** * Properties *)

(** ** Numbers *)

Lemma Qred_inject_Z (z : Z) : Qred (inject_Z z) = inject_Z z.
Proof. apply Qred_identity. simpl. apply Z.gcd_1_r. Qed.

Lemma fin_inject_Z (q : Q) (z : Z) : (q == inject_Z z)%Q -> fin q = of_Z z.
Proof.
  intros H. unfold fin, of_Z. f_equal.
  rewrite <- (Qred_inject_Z z). by apply Qred_complete.
Qed.

Lemma to_index_of_nat (n : nat) : to_index (of_nat n) = Some n.
Proof.
  unfold to_index, of_nat, of_Z. rewrite Qred_inject_Z. simpl.
  destruct (Z.leb_spec 0 (Z.of_nat n)); [|lia].
  by rewrite Nat2Z.id.
Qed.

Lemma Qis_zero_of_nat (n : nat) :
  Qis_zero (inject_Z (Z.of_nat n)) = bool_decide (n = 0).
Proof.
  unfold Qis_zero. simpl. case_bool_decide; subst; simpl; [done|].
  apply Z.eqb_neq. lia.
Qed.

Lemma jfloor_jdiv_of_nat (k s : nat) :
  0 < s -> jfloor (jdiv (of_nat k) (of_nat s)) = of_nat (k / s).
Proof.
  intros Hs. unfold jdiv, of_nat, of_Z. rewrite Qis_zero_of_nat.
  rewrite bool_decide_eq_false_2 by lia.
  unfold fin, jfloor, of_Z. f_equal. f_equal.
  rewrite (Qfloor_comp _ _ (Qred_correct _)).
  rewrite <- Zdiv_Qdiv. by rewrite Nat2Z.inj_div.
Qed.

Lemma Qtrunc_nonneg (q : Q) : (0 <= q)%Q -> Qtrunc q = Qfloor q.
Proof.
  intros H. unfold Qtrunc, Qis_neg.
  destruct (Z.ltb_spec (Qnum q) 0); [|done].
  unfold Qle in H. simpl in H. lia.
Qed.

Lemma jrem_of_nat (k s : nat) :
  0 < s -> jrem (of_nat k) (of_nat s) = of_nat (k mod s).
Proof.
  intros Hs. unfold jrem, of_nat at 1 2, of_Z. rewrite Qis_zero_of_nat.
  rewrite bool_decide_eq_false_2 by lia.
  apply fin_inject_Z.
  rewrite Qtrunc_nonneg.
  - rewrite <- Zdiv_Qdiv, Nat2Z.inj_mod, Z.mod_eq by lia.
    unfold Qeq. simpl. lia.
  - apply Qle_shift_div_l.
    + unfold Qlt. simpl. lia.
    + unfold Qle. simpl. lia.
Qed.

Lemma coordinates_of_nat (k s : nat) :
  0 < s ->
  _indexToMatrixCoordinates (of_nat k) (of_nat s) (of_nat s)
  = (of_nat (k / s), of_nat (k mod s)).
Proof.
  intros Hs. unfold _indexToMatrixCoordinates.
  by rewrite jfloor_jdiv_of_nat, jrem_of_nat.
Qed.

Lemma ceil_sqrt_le (n : nat) : n <= ceil_sqrt n * ceil_sqrt n.
Proof.
  unfold ceil_sqrt. pose proof (Nat.sqrt_spec n (Nat.le_0_l n)) as [H1 H2].
  simpl. destruct (Nat.eqb_spec (Nat.sqrt n * Nat.sqrt n) n); lia.
Qed.

Lemma ceil_sqrt_pos (n : nat) : 0 < n -> 0 < ceil_sqrt n.
Proof. intros H. pose proof (ceil_sqrt_le n). destruct (ceil_sqrt n); lia. Qed.

Lemma ceil_sqrt_least (n : nat) :
  0 < n -> (ceil_sqrt n - 1) * (ceil_sqrt n - 1) < n.
Proof.
  intros Hn. unfold ceil_sqrt.
  pose proof (Nat.sqrt_spec n (Nat.le_0_l n)) as [H1 H2].
  simpl. destruct (Nat.eqb_spec (Nat.sqrt n * Nat.sqrt n) n).
  - destruct (Nat.sqrt n); simpl in *; lia.
  - simpl. rewrite Nat.sub_0_r. lia.
Qed.

(** ** Grids addressed by a linear index *)

Lemma linear_split (s k : nat) : 0 < s -> k = k / s * s + k mod s.
Proof. intros. rewrite Nat.mul_comm. by apply Nat.div_mod_eq. Qed.

Lemma linear_row_lt (s k : nat) : k < s * s -> k / s < s.
Proof. intros H. apply Nat.Div0.div_lt_upper_bound. lia. Qed.

Lemma linear_col_lt (s k : nat) : 0 < s -> k mod s < s.
Proof. intros H. apply Nat.mod_upper_bound. lia. Qed.

Lemma linear_neq (s k k' : nat) :
  0 < s -> k' <> k -> k' / s = k / s -> k' mod s <> k mod s.
Proof.
  intros Hs Hne Hrow Hcol. apply Hne.
  rewrite (linear_split s k Hs), (linear_split s k' Hs). congruence.
Qed.

Lemma square_lookup (s : nat) (m : matrix) (i : nat) :
  square s m -> i < s -> exists row, m !! i = Some row /\ length row = s.
Proof.
  intros [Hlen Hrows] Hi.
  destruct (lookup_lt_is_Some_2 m i) as [row Hrow]; [lia|].
  exists row. split; [done|].
  by apply (Forall_lookup_1 _ _ _ _ Hrows Hrow).
Qed.

Lemma matrix_set_linear (s k : nat) (v : cell) (m : matrix) :
  square s m -> k < s * s ->
  exists m',
    matrix_set m (of_nat (k / s)) (of_nat (k mod s)) v = Ok m'
    /\ square s m'
    /\ forall k', cell_at s m' k'
                  = if decide (k' = k) then Some v else cell_at s m k'.
Proof.
  intros Hsq Hk.
  assert (Hs : 0 < s) by (destruct s; lia).
  pose proof (linear_row_lt s k Hk) as Hr.
  pose proof (linear_col_lt s k Hs) as Hc.
  destruct (square_lookup s m _ Hsq Hr) as (row & Hrow & Hlen).
  exists (<[k / s := <[k mod s := v]> row]> m).
  unfold matrix_set. rewrite !to_index_of_nat, Hrow.
  destruct (Nat.ltb_spec (k mod s) (length row)); [|lia].
  split; [done|]. split.
  - destruct Hsq as [Hl Hf]. split.
    + by rewrite length_insert.
    + apply Forall_insert; [done|]. cbn. by rewrite length_insert.
  - intros k'. unfold cell_at. destruct (decide (k' = k)) as [->|Hne].
    + rewrite list_lookup_insert_eq by (destruct Hsq; lia). simpl.
      apply list_lookup_insert_eq. lia.
    + destruct (decide (k' / s = k / s)) as [Heq|Hrne].
      * rewrite Heq, list_lookup_insert_eq by (destruct Hsq; lia).
        rewrite Hrow. simpl. apply list_lookup_insert_ne.
        intros Hcol. by apply (linear_neq s k k' Hs Hne Heq).
      * by rewrite list_lookup_insert_ne.
Qed.

Lemma create3dMatrix_square (s d : nat) (v : jsnum) :
  1 < d -> square s (_create3dMatrix s s d v).
Proof.
  intros Hd. unfold _create3dMatrix. split.
  - apply length_replicate.
  - apply Forall_replicate.
    destruct (Nat.eqb_spec d 1); [lia|].
    destruct (Nat.ltb_spec 1 d); [|lia].
    apply length_replicate.
Qed.

Lemma create3dMatrix_cell_at (s d k : nat) :
  1 < d -> k < s * s ->
  cell_at s (_create3dMatrix s s d (of_Z (-1))) k = Some (fill d).
Proof.
  intros Hd Hk. assert (Hs : 0 < s) by (destruct s; lia).
  unfold cell_at, _create3dMatrix.
  rewrite lookup_replicate_2 by (by apply linear_row_lt). simpl.
  destruct (Nat.eqb_spec d 1); [lia|].
  destruct (Nat.ltb_spec 1 d); [|lia].
  by rewrite lookup_replicate_2 by (by apply linear_col_lt).
Qed.

(** ** The loop over a node's neighbours *)

Lemma forEach_neighbour_spec (gn : list ref) (P A : nat) (nbs : list ref) :
  forall (c : nat) (adj : matrix),
    square A adj -> c + length nbs <= A * A ->
    exists adj',
      forEach_neighbour gn P A nbs c adj = Ok (c + length nbs, adj')
      /\ square A adj'
      /\ forall k, cell_at A adj' k
                   = if decide (c <= k < c + length nbs)
                     then neighbourCoords gn P <$> nbs !! (k - c)
                     else cell_at A adj k.
Proof.
  induction nbs as [|nb rest IH]; intros c adj Hsq Hc;
    cbn [forEach_neighbour length] in *.
  - exists adj. rewrite Nat.add_0_r. split; [done|]. split; [done|].
    intros k. destruct (decide _); [lia|done].
  - assert (HA : 0 < A) by (destruct A; lia).
    rewrite (coordinates_of_nat c A HA).
    destruct (_indexToMatrixCoordinates (of_Z (indexOf gn nb))
                (of_nat P) (of_nat P))
      as [nbX nbY] eqn:Hnb.
    destruct (matrix_set_linear A c (Arr [nbX; nbY]) adj Hsq)
      as (adj1 & -> & Hsq1 & Hget1);
      [lia|].
    cbn [mbind result_bind].
    destruct (IH (S c) adj1 Hsq1) as (adj2 & -> & Hsq2 & Hget2); [lia|].
    exists adj2. split; [f_equal; f_equal; lia|]. split; [done|].
    intros k. rewrite Hget2, Hget1.
    destruct (decide (S c <= k < S c + length rest)) as [Hin|Hout].
    + destruct (decide (c <= k < c + S (length rest))); [|lia].
      replace (k - c) with (S (k - S c)) by lia. done.
    + destruct (decide (k = c)) as [->|Hne].
      * destruct (decide (c <= c < c + S (length rest))); [|lia].
        rewrite Nat.sub_diag. simpl. unfold neighbourCoords. by rewrite Hnb.
      * destruct (decide (c <= k < c + S (length rest))); [lia|done].
Qed.

(** ** The loop over the nodes *)

Lemma links_cons (h : heap) (r : ref) (l : list ref) :
  links h (r :: l) = neighbours (h r) ++ links h l.
Proof. reflexivity. Qed.

Lemma links_app (h : heap) (l1 l2 : list ref) :
  links h (l1 ++ l2) = links h l1 ++ links h l2.
Proof. unfold links. by rewrite map_app, concat_app. Qed.

Lemma for_each_node_spec (h : heap) (gn : list ref) (P A : nat)
    (todo : list ref) :
  forall (i : nat) (st : Grids),
    square P (nodesGrid st) -> square P (positionsGrid st) ->
    square A (adjacencyGrid st) ->
    i + length todo <= P * P ->
    cursor st + length (links h todo) <= A * A ->
    exists st',
      for_each_node h gn P A i todo st = Ok st'
      /\ cursor st' = cursor st + length (links h todo)
      /\ square P (nodesGrid st') /\ square P (positionsGrid st')
      /\ square A (adjacencyGrid st')
      /\ (forall k, cell_at P (nodesGrid st') k
            = if decide (i <= k < i + length todo)
              then (fun r => nodeCell h A r
                                (cursor st + run_start h todo (k - i)))
                   <$> todo !! (k - i)
              else cell_at P (nodesGrid st) k)
      /\ (forall k, cell_at P (positionsGrid st') k
            = if decide (i <= k < i + length todo)
              then positionCell h <$> todo !! (k - i)
              else cell_at P (positionsGrid st) k)
      /\ (forall k, cell_at A (adjacencyGrid st') k
            = if decide (cursor st <= k < cursor st + length (links h todo))
              then neighbourCoords gn P <$> links h todo !! (k - cursor st)
              else cell_at A (adjacencyGrid st) k).
Proof.
  induction todo as [|r rest IH]; intros i st HsqN HsqP HsqA Hi Hc.
  - exists st. simpl. rewrite !Nat.add_0_r.
    do 5 (split; [done|]).
    split; [|split]; intros k; destruct (decide _); done || lia.
  - simpl in Hi. rewrite links_cons, length_app in Hc.
    assert (HP : 0 < P) by (destruct P; lia).
    cbn [for_each_node].
    destruct (_indexToMatrixCoordinates (of_nat (cursor st))
                (of_nat A) (of_nat A))
      as [adjX adjY] eqn:Hadj.
    rewrite (coordinates_of_nat i P HP).
    destruct (matrix_set_linear P i
                (Arr [adjX; adjY; of_nat (length (neighbours (h r)))])
                (nodesGrid st) HsqN) as (nm & -> & HsqN1 & HgetN); [lia|].
    destruct (matrix_set_linear P i (Arr [node_x (h r); node_y (h r)])
                (positionsGrid st) HsqP) as (pm & -> & HsqP1 & HgetP); [lia|].
    destruct (forEach_neighbour_spec gn P A (neighbours (h r)) (cursor st)
                (adjacencyGrid st) HsqA) as (am & -> & HsqA1 & HgetA); [lia|].
    cbn [mbind result_bind].
    destruct (IH (S i)
                (mkGrids (cursor st + length (neighbours (h r))) nm am pm))
      as (st' & -> & Hcur & HsqN2 & HsqP2 & HsqA2 & HgN & HgP & HgA);
      simpl; try done; try lia.
    cbn [cursor nodesGrid adjacencyGrid positionsGrid] in *.
    exists st'. split; [done|].
    split; [rewrite links_cons, length_app; lia|].
    do 3 (split; [done|]).
    split; [|split].
    + intros k. rewrite HgN, HgetN. cbn [length].
      repeat case_decide; try lia; try done.
      * replace (k - i) with (S (k - S i)) by lia.
        cbn [lookup list_lookup]. unfold run_start. cbn [take].
        rewrite links_cons, length_app. by rewrite Nat.add_assoc.
      * subst k. rewrite Nat.sub_diag.
        cbn [lookup list_lookup fmap option_fmap option_map].
        unfold nodeCell, run_start, degree. cbn [take links map concat length].
        by rewrite Nat.add_0_r, Hadj.
    + intros k. rewrite HgP, HgetP. cbn [length].
      repeat case_decide; try lia; try done.
      * by replace (k - i) with (S (k - S i)) by lia.
      * subst k. by rewrite Nat.sub_diag.
    + intros k. rewrite HgA, HgetA. rewrite links_cons, length_app.
      repeat case_decide; try lia; try done.
      * rewrite lookup_app_r by lia. f_equal. f_equal. lia.
      * by rewrite lookup_app_l by lia.
Qed.

(** ** The encoder as a whole *)

Lemma foldl_add_links (h : heap) (l : list ref) (a : nat) :
  foldl (fun total current => total + current) a
    (map (fun r => length (neighbours (h r))) l)
  = a + length (links h l).
Proof.
  revert a. induction l as [|r l IH]; intros a; simpl.
  - lia.
  - rewrite IH, links_cons, length_app. lia.
Qed.

Lemma totalNumberOfEdges_links (h : heap) (g : Graph) :
  totalNumberOfEdges h g = length (links h (nodes g)).
Proof. unfold totalNumberOfEdges. by rewrite foldl_add_links. Qed.

Lemma nodes_fit (g : Graph) :
  length (nodes g) <= nodesMatrixSize g * nodesMatrixSize g.
Proof. apply ceil_sqrt_le. Qed.

Lemma links_fit (h : heap) (g : Graph) :
  length (links h (nodes g))
  <= adjacencyMatrixSize h g * adjacencyMatrixSize h g.
Proof.
  unfold adjacencyMatrixSize. rewrite totalNumberOfEdges_links.
  apply ceil_sqrt_le.
Qed.

Lemma graph_matrices_encoded (h : heap) (g : Graph) :
  exists st, graph_matrices h g = Ok st /\ Encoded h g st.
Proof.
  unfold graph_matrices.
  pose proof (nodes_fit g) as HN. pose proof (links_fit h g) as HE.
  set (P := nodesMatrixSize g) in *. set (A := adjacencyMatrixSize h g) in *.
  destruct (for_each_node_spec h (nodes g) P A (nodes g) 0
              (mkGrids 0 (_create3dMatrix P P 3 (of_Z (-1)))
                 (_create3dMatrix A A 2 (of_Z (-1)))
                 (_create3dMatrix P P 2 (of_Z (-1)))))
    as (st & Hrun & Hcur & HsqN & HsqP & HsqA & HgN & HgP & HgA);
    cbn [cursor nodesGrid adjacencyGrid positionsGrid];
    try (apply create3dMatrix_square; lia); try lia.
  cbn [cursor nodesGrid adjacencyGrid positionsGrid] in *.
  exists st. split; [done|].
  split; try done; fold P; fold A.
  - intros i r Hi. pose proof (lookup_lt_Some _ _ _ Hi).
    rewrite HgN. case_decide; [|lia].
    by rewrite Nat.sub_0_r, Hi.
  - intros k Hk. rewrite HgN. case_decide; [lia|].
    apply create3dMatrix_cell_at; lia.
  - intros i r Hi. pose proof (lookup_lt_Some _ _ _ Hi).
    rewrite HgP. case_decide; [|lia].
    by rewrite Nat.sub_0_r, Hi.
  - intros k Hk. rewrite HgP. case_decide; [lia|].
    apply create3dMatrix_cell_at; lia.
  - intros k nb Hk. pose proof (lookup_lt_Some _ _ _ Hk).
    rewrite HgA. case_decide; [|lia].
    by rewrite Nat.sub_0_r, Hk.
  - intros k Hk. rewrite HgA. case_decide; [lia|].
    apply create3dMatrix_cell_at; lia.
Qed.

(** ** The write-back loop *)

Lemma foldR_seq_invariant {S : Type} (I : nat -> S -> Prop)
    (f : nat -> S -> result S) (n : nat) :
  forall (a : nat) (s : S),
    I a s ->
    (forall i s1, a <= i < a + n -> I i s1 ->
                  exists s2, f i s1 = Ok s2 /\ I (Datatypes.S i) s2) ->
    exists s', foldR f (seq a n) s = Ok s' /\ I (a + n) s'.
Proof.
  induction n as [|n IH]; intros a s Ha Hstep; simpl.
  - exists s. by rewrite Nat.add_0_r.
  - destruct (Hstep a s) as (s2 & -> & H2); [lia|done|].
    cbn [mbind result_bind].
    destruct (IH (Datatypes.S a) s2 H2) as (s' & -> & H').
    + intros i s1 Hi. apply Hstep. lia.
    + exists s'. split; [done|].
      by replace (a + Datatypes.S n) with (Datatypes.S a + n) by lia.
Qed.

Lemma cell_at_row_col (s : nat) (m : matrix) (row col : nat) :
  col < s ->
  m !! row ≫= (fun therow => therow !! col) = cell_at s m (row * s + col).
Proof.
  intros Hc. unfold cell_at.
  rewrite Nat.div_add_l, Nat.div_small, Nat.add_0_r by lia.
  rewrite Nat.add_comm, Nat.Div0.mod_add, Nat.mod_small by lia.
  done.
Qed.

Lemma write_back_cell_step (g : Graph) (pos : matrix) (hv h2 hc : heap)
    (row col : nat) :
  holds_positions g pos hv ->
  col < nodesMatrixSize g ->
  written_back g hv h2 (row * nodesMatrixSize g + col) hc ->
  exists hc',
    write_back_cell (Some g) pos (nodesMatrixSize g) row col hc = Ok hc'
    /\ written_back g hv h2 (row * nodesMatrixSize g + Datatypes.S col) hc'.
Proof.
  intros [Hsq Hpos] Hcol (Hdone & Hout & Hrest).
  unfold write_back_cell. set (P := nodesMatrixSize g) in *.
  destruct (Nat.ltb_spec (row * P + col) (length (nodes g))) as [Hlt|Hge].
  - destruct (lookup_lt_is_Some_2 (nodes g) _ Hlt) as [r Hr].
    rewrite Hr, (cell_at_row_col P pos row col Hcol), (Hpos _ _ Hr).
    unfold positionCell. eexists. split; [done|].
    split; [|split].
    + intros i r' Hi Hr'. unfold heap_set. case_decide as Heq; [by subst|].
      apply (Hdone i); [|done].
      destruct (decide (i = row * P + col)) as [->|]; [congruence|lia].
    + intros r' Hr'. unfold heap_set. case_decide as Heq; [|by apply Hout].
      subst. exfalso. apply Hr'. apply list_elem_of_lookup. eauto.
    + intros r'. unfold heap_set. case_decide as Heq; [|done].
      subst. simpl. apply Hrest.
  - exists hc. split; [done|]. split; [|done].
    intros i r Hi Hr. pose proof (lookup_lt_Some _ _ _ Hr).
    apply (Hdone i); [lia|done].
Qed.

Lemma write_back_positions (g : Graph) (pos : matrix) (hv h2 : heap) :
  nodes g <> [] ->
  holds_positions g pos hv ->
  exists h',
    write_back (Some g) pos h2 = Ok h'
    /\ (forall r, r ∈ nodes g ->
          node_x (h' r) = node_x (hv r) /\ node_y (h' r) = node_y (hv r))
    /\ (forall r, r ∉ nodes g -> h' r = h2 r)
    /\ (forall r, isFixed (h' r) = isFixed (h2 r)
                  /\ neighbours (h' r) = neighbours (h2 r)).
Proof.
  intros Hne Hholds. pose proof Hholds as [Hsq Hpos].
  pose proof (nodes_fit g) as HN.
  set (P := nodesMatrixSize g) in *.
  assert (HP : 0 < P).
  { apply ceil_sqrt_pos. destruct (nodes g); [done|simpl; lia]. }
  destruct (square_lookup P pos 0 Hsq HP) as (row0 & Hrow0 & Hlen0).
  unfold write_back. rewrite Hrow0, Hlen0. destruct Hsq as [Hrows _].
  rewrite Hrows.
  destruct (foldR_seq_invariant
              (fun row hc => written_back g hv h2 (row * P) hc)
              (fun row h1 =>
                 foldR (fun col h3 => write_back_cell (Some g) pos P row col h3)
                   (seq 0 P) h1)
              P 0 h2) as (h' & Hrun & Hfin & Hout & Hrest).
  - split; [|done]. intros i r Hi. lia.
  - intros row h1 _ Hrow.
    destruct (foldR_seq_invariant
                (fun col hc => written_back g hv h2 (row * P + col) hc)
                (fun col h3 => write_back_cell (Some g) pos P row col h3)
                P 0 h1) as (h3 & Hrun3 & Hfin3).
    + by rewrite Nat.add_0_r.
    + intros col hc Hcol Hc.
      apply (write_back_cell_step g pos hv h2); [done|fold P; lia|done].
    + exists h3. split; [done|].
      by replace (Datatypes.S row * P) with (row * P + (0 + P)) by lia.
  - exists h'. split; [done|]. split; [|done].
    intros r Hr. apply list_elem_of_lookup in Hr as [i Hi].
    apply (Hfin i); [|done]. pose proof (lookup_lt_Some _ _ _ Hi). lia.
Qed.

(** ** The kernel *)

Lemma mapR_seq {B : Type} (f : nat -> result B) (g : nat -> B) (n : nat) :
  forall a,
    (forall i, a <= i < a + n -> f i = Ok (g i)) ->
    mapR f (seq a n) = Ok (map g (seq a n)).
Proof.
  induction n as [|n IH]; intros a Hf; simpl; [done|].
  rewrite Hf by lia. cbn [mbind result_bind].
  rewrite IH; [done|]. intros i Hi. apply Hf. lia.
Qed.

Lemma kernel_function_array (k : Kernel) (pos : matrix) (s row col : nat)
    (l : list jsnum) :
  col < s ->
  cell_at s pos (row * s + col) = Some (Arr l) ->
  kernel_function k pos row col = Ok (moved_cell (kernel_constant k) (Arr l)).
Proof.
  intros Hcol. rewrite <- (cell_at_row_col s pos row col Hcol).
  unfold kernel_function. destruct (pos !! row) as [therow|]; [|done].
  simpl. by intros ->.
Qed.

Lemma run_kernel_spec (k : Kernel) (pos : matrix) :
  0 < outputSize k ->
  square (outputSize k) pos ->
  (forall j, j < outputSize k * outputSize k ->
             exists l, cell_at (outputSize k) pos j = Some (Arr l)) ->
  exists pos',
    run_kernel k pos = Ok pos'
    /\ square (outputSize k) pos'
    /\ forall j, j < outputSize k * outputSize k ->
         cell_at (outputSize k) pos' j
         = moved_cell (kernel_constant k) <$> cell_at (outputSize k) pos j.
Proof.
  intros Hpos Hsq Harr. set (s := outputSize k) in *.
  set (out := fun row col =>
         moved_cell (kernel_constant k)
           (default (Scalar NaN) (cell_at s pos (row * s + col)))).
  exists (map (fun row => map (out row) (seq 0 s)) (seq 0 s)).
  split; [|split].
  - unfold run_kernel. fold s.
    destruct (Nat.eqb_spec s 0) as [Hs|_]; [lia|].
    apply mapR_seq. intros row Hrow.
    apply mapR_seq. intros col Hcol.
    destruct (Harr (row * s + col)) as [l Hl]; [nia|].
    unfold out. rewrite Hl. simpl.
    apply (kernel_function_array k pos s); [lia|done].
  - split.
    + by rewrite length_map, length_seq.
    + apply Forall_forall. intros row Hin.
      apply list_elem_of_In, in_map_iff in Hin as (i & <- & _).
      by rewrite length_map, length_seq.
  - intros j Hj. assert (Hs : 0 < s) by (destruct s; lia).
    pose proof (linear_row_lt s j Hj). pose proof (linear_col_lt s j Hs).
    unfold cell_at at 1.
    rewrite list_lookup_fmap, lookup_seq_lt by done. simpl.
    rewrite list_lookup_fmap, lookup_seq_lt by done. simpl.
    unfold out. rewrite <- (linear_split s j Hs).
    destruct (Harr j Hj) as [l ->]. done.
Qed.

(** ** One tick *)

Lemma nodesMatrixSize_pos (g : Graph) :
  nodes g <> [] -> 0 < nodesMatrixSize g.
Proof.
  intros Hne. apply ceil_sqrt_pos. destruct (nodes g); [done|simpl; lia].
Qed.

Lemma tick_ready (g : Graph) (hv : heap) (k : Kernel) (w : World) :
  Ready g hv k w ->
  exists w',
    computeNextPositions w = Ok w'
    /\ Ready g (fun r => moved (kernel_constant (tick_kernel k)) (hv r))
         (tick_kernel k) w'
    /\ (forall j, j < nodesMatrixSize g * nodesMatrixSize g ->
          cell_at (nodesMatrixSize g) (_positionsMatrix (this w')) j
          = moved_cell (kernel_constant (tick_kernel k))
            <$> cell_at (nodesMatrixSize g) (_positionsMatrix (this w)) j)
    /\ (forall r, r ∈ nodes g ->
          node_x (store w' r)
          = jadd (node_x (hv r)) (kernel_constant (tick_kernel k))
          /\ node_y (store w' r) = jadd (node_y (hv r)) (Fin 0.1))
    /\ (forall r, r ∉ nodes g -> store w' r = store w r)
    /\ (forall r, isFixed (store w' r) = isFixed (store w r)
                  /\ neighbours (store w' r) = neighbours (store w r)).
Proof.
  intros [Hg Hne Hk Hside [Hsq Hpos] Harr].
  assert (Hside' : outputSize (tick_kernel k) = nodesMatrixSize g) by done.
  destruct (run_kernel_spec (tick_kernel k) (_positionsMatrix (this w)))
    as (pos' & Hrun & Hsq' & Hcells).
  { rewrite Hside'. by apply nodesMatrixSize_pos. }
  { by rewrite Hside'. }
  { by rewrite Hside'. }
  rewrite Hside' in Hsq', Hcells.
  assert (Hholds : holds_positions g pos'
            (fun r => moved (kernel_constant (tick_kernel k)) (hv r))).
  { split; [done|]. intros i r Hi.
    pose proof (lookup_lt_Some _ _ _ Hi). pose proof (nodes_fit g).
    rewrite Hcells by lia. by rewrite (Hpos i r Hi). }
  destruct (write_back_positions g pos' _ (store w) Hne Hholds)
    as (h' & Hwb & Hin & Hout & Hrest).
  unfold computeNextPositions. rewrite Hk.
  rewrite Hrun. cbn [mbind result_bind _graph]. rewrite Hg, Hwb.
  eexists. split; [done|]. cbn [this store].
  split; [|split; [|split; [|split]]]; try done.
  split; cbn [this _graph _kernel _positionsMatrix]; try done.
  intros j Hj. rewrite Hcells by done.
  destruct (Harr j Hj) as [l ->]. simpl. eauto.
Qed.

(** ** [setGraph] *)

Lemma fresh_x_bounds (wd u : Q) :
  (0 <= u < 1)%Q ->
  exists qx, fresh_x (Fin wd) u = Fin qx
             /\ (wd / 2 - 50 <= qx < wd / 2 + 50)%Q.
Proof.
  intros Hu. unfold fresh_x, jsub, jadd, jdiv, jmul, jneg, of_nat, of_Z, fin.
  simpl Qis_zero. cbv iota. eexists. split; [reflexivity|].
  rewrite !Qred_correct.
  change (inject_Z (Z.of_nat 2)) with 2%Q.
  change (inject_Z (Z.of_nat 100)) with 100%Q.
  change (inject_Z (Z.of_nat 50)) with 50%Q.
  split; lra.
Qed.

Lemma fresh_y_bounds (ht u : Q) :
  (0 <= u < 1)%Q ->
  exists qy, fresh_y (Fin ht) u = Fin qy
             /\ (ht / 2 - 50 <= qy < ht / 2 + 50)%Q.
Proof.
  intros Hu. unfold fresh_y, jsub, jadd, jdiv, jmul, jneg, of_nat, of_Z, fin.
  simpl Qis_zero. cbv iota. eexists. split; [reflexivity|].
  rewrite !Qred_correct.
  change (inject_Z (Z.of_nat 2)) with 2%Q.
  change (inject_Z (Z.of_nat 100)) with 100%Q.
  change (inject_Z (Z.of_nat 50)) with 50%Q.
  split; lra.
Qed.

Lemma randomize_nodes_spec (random : nat -> Q) (wd ht : jsnum)
    (todo : list ref) :
  forall (h : heap) (n : nat),
    let '(h', n') := randomize_nodes random wd ht todo h n in
    n' = n + 2 * length todo
    /\ (forall r, r ∉ todo -> h' r = h r)
    /\ (forall r, neighbours (h' r) = neighbours (h r))
    /\ (forall r, r ∈ todo ->
          isFixed (h' r) = false
          /\ exists j, node_x (h' r) = fresh_x wd (random j)
                       /\ node_y (h' r) = fresh_y ht (random (S j))).
Proof.
  induction todo as [|r0 rest IH]; intros h n; cbn [randomize_nodes].
  - split; [simpl; lia|]. split; [done|]. split; [done|].
    intros r Hr. by apply not_elem_of_nil in Hr.
  - specialize (IH (heap_set h r0
                      (mkNode (fresh_x wd (random n))
                         (fresh_y ht (random (S n))) false
                         (neighbours (h r0)))) (S (S n))).
    destruct (randomize_nodes random wd ht rest _ (S (S n))) as [h' n'].
    destruct IH as (Hn & Hout & Hnb & Hin).
    split; [simpl; lia|]. split; [|split].
    + intros r Hr. apply not_elem_of_cons in Hr as [Hne Hr].
      rewrite (Hout r Hr). unfold heap_set. by case_decide.
    + intros r. rewrite Hnb. unfold heap_set. case_decide; by subst.
    + intros r Hr. destruct (decide (r ∈ rest)) as [Hrest|Hrest].
      * by apply Hin.
      * apply elem_of_cons in Hr as [->|]; [|done].
        rewrite (Hout r0 Hrest). unfold heap_set.
        case_decide; [|done]. simpl. eauto.
Qed.

Lemma randomize_nodes_agree (random : nat -> Q) (wd ht : jsnum)
    (todo : list ref) :
  forall (h1 h2 : heap) (n : nat) (seen : ref -> Prop),
    (forall r, neighbours (h1 r) = neighbours (h2 r)) ->
    (forall r, seen r -> h1 r = h2 r) ->
    forall r, seen r \/ r ∈ todo ->
      (randomize_nodes random wd ht todo h1 n).1 r
      = (randomize_nodes random wd ht todo h2 n).1 r.
Proof.
  induction todo as [|r0 rest IH]; intros h1 h2 n seen Hnb Hseen r Hr;
    cbn [randomize_nodes].
  - destruct Hr as [Hr|Hr]; [by apply Hseen|by apply not_elem_of_nil in Hr].
  - apply (IH _ _ _ (fun r' => seen r' \/ r' = r0)).
    + intros r'. unfold heap_set. case_decide; simpl; by rewrite ?Hnb.
    + intros r' Hr'. unfold heap_set. case_decide as Heq.
      * by rewrite Hnb.
      * destruct Hr' as [Hr'|Hr']; [by apply Hseen|done].
    + destruct Hr as [Hr|Hr]; [by left; left|].
      apply elem_of_cons in Hr as [->|Hr]; [left; by right|by right].
Qed.

Lemma for_each_node_ext (h1 h2 : heap) (gn : list ref) (P A : nat)
    (todo : list ref) :
  (forall r, r ∈ todo -> h1 r = h2 r) ->
  forall i st,
    for_each_node h1 gn P A i todo st = for_each_node h2 gn P A i todo st.
Proof.
  induction todo as [|r rest IH]; intros Heq i st; cbn [for_each_node];
    [done|].
  rewrite (Heq r) by apply list_elem_of_here.
  destruct (_indexToMatrixCoordinates (of_nat (cursor st)) _ _) as [adjX adjY].
  destruct (_indexToMatrixCoordinates (of_nat i) _ _) as [nodeX nodeY].
  destruct (matrix_set (nodesGrid st) _ _ _); [|done].
  cbn [mbind result_bind].
  destruct (matrix_set (positionsGrid st) _ _ _); [|done].
  cbn [mbind result_bind].
  destruct (forEach_neighbour gn P A _ _ _) as [[next adj]|]; [|done].
  cbn [mbind result_bind]. apply IH.
  intros r' Hr'. apply Heq. by apply list_elem_of_further.
Qed.

Lemma graph_matrices_ext (h1 h2 : heap) (g : Graph) :
  (forall r, r ∈ nodes g -> h1 r = h2 r) ->
  graph_matrices h1 g = graph_matrices h2 g.
Proof.
  intros Heq. unfold graph_matrices.
  assert (HA : adjacencyMatrixSize h1 g = adjacencyMatrixSize h2 g).
  { unfold adjacencyMatrixSize, totalNumberOfEdges. do 2 f_equal.
    apply map_ext_in. intros r Hr. rewrite (Heq r); [done|].
    by apply list_elem_of_In. }
  rewrite HA. by apply for_each_node_ext.
Qed.

Lemma setGraph_encoded (random : nat -> Q) (w : World) (g : Graph) :
  exists w',
    setGraph random w g = Ok w'
    /\ store w'
       = (randomize_nodes random (_width (this w)) (_height (this w))
            (nodes g) (store w) (draws w)).1
    /\ draws w' = draws w + 2 * length (nodes g)
    /\ _graph (this w') = Some g
    /\ _kernel (this w')
       = Some (mkKernel (nodesMatrixSize g) (of_nat 3) None)
    /\ graph_matrices (store w') g
       = Ok (grids_of (this w') (length (links (store w') (nodes g))))
    /\ Encoded (store w') g
         (grids_of (this w') (length (links (store w') (nodes g))))
    /\ _width (this w') = _width (this w)
    /\ _height (this w') = _height (this w)
    /\ _speed (this w') = _speed (this w)
    /\ _springRestLength (this w') = _springRestLength (this w)
    /\ _springDampening (this w') = _springDampening (this w)
    /\ _charge (this w') = _charge (this w).
Proof.
  unfold setGraph. cbn [_width _height].
  pose proof (randomize_nodes_spec random (_width (this w)) (_height (this w))
                (nodes g) (store w) (draws w)) as Hrand.
  destruct (randomize_nodes random _ _ (nodes g) (store w) (draws w))
    as [h n] eqn:Hr.
  destruct Hrand as (Hn & _).
  destruct (graph_matrices_encoded h g) as (st & Hst & Henc).
  unfold _setUpGPU, _createGraphMatrices. cbn [_graph].
  rewrite Hst. cbn [mbind result_bind].
  eexists. split; [reflexivity|].
  cbn [store this draws fst _createKernel _graph _kernel _nodesMatrix
       _width _height _speed _springRestLength _springDampening _charge].
  split; [done|]. split; [done|]. split; [done|].
  destruct st as [c nm am pm].
  pose proof (enc_cursor _ _ _ Henc) as Hc.
  pose proof (enc_nodes_square _ _ _ Henc) as [Hlen _].
  cbn [cursor nodesGrid adjacencyGrid positionsGrid] in *. subst c.
  rewrite Hlen. unfold grids_of.
  cbn [_nodesMatrix _adjacencyMatrix _positionsMatrix].
  repeat (split; [done|]). done.
Qed.

Lemma Encoded_arrays (h : heap) (g : Graph) (st : Grids) (j : nat) :
  Encoded h g st ->
  j < nodesMatrixSize g * nodesMatrixSize g ->
  exists l, cell_at (nodesMatrixSize g) (positionsGrid st) j = Some (Arr l).
Proof.
  intros Henc Hj. destruct (decide (j < length (nodes g))) as [Hlt|Hge].
  - destruct (lookup_lt_is_Some_2 (nodes g) j Hlt) as [r Hr].
    rewrite (enc_position _ _ _ Henc j r Hr). unfold positionCell. eauto.
  - rewrite (enc_position_pad _ _ _ Henc j) by lia. unfold fill. eauto.
Qed.

Lemma setGraph_ready (random : nat -> Q) (w : World) (g : Graph) :
  nodes g <> [] ->
  exists w',
    setGraph random w g = Ok w'
    /\ Ready g (store w') (mkKernel (nodesMatrixSize g) (of_nat 3) None) w'.
Proof.
  intros Hne.
  destruct (setGraph_encoded random w g)
    as (w' & Hrun & _ & _ & Hg & Hk & _ & Henc & _).
  exists w'. split; [done|]. split; try done.
  - split.
    + apply (enc_positions_square _ _ _ Henc).
    + apply (enc_position _ _ _ Henc).
  - intros j Hj. apply (Encoded_arrays _ _ _ _ Henc Hj).
Qed.

(** ** Successive ticks *)

Lemma tick_synced (g : Graph) (k : Kernel) (w : World) :
  Ready g (store w) k w ->
  exists w',
    computeNextPositions w = Ok w'
    /\ Ready g (store w') (tick_kernel k) w'
    /\ (forall r, r ∈ nodes g ->
          node_x (store w' r)
          = jadd (node_x (store w r)) (kernel_constant (tick_kernel k))
          /\ node_y (store w' r) = jadd (node_y (store w r)) (Fin 0.1))
    /\ (forall r, r ∉ nodes g -> store w' r = store w r)
    /\ (forall r, isFixed (store w' r) = isFixed (store w r)
                  /\ neighbours (store w' r) = neighbours (store w r)).
Proof.
  intros Hready.
  destruct (tick_ready g (store w) k w Hready)
    as (w' & Hrun & Hready' & Hcells & Hin & Hout & Hrest).
  exists w'. split; [done|]. split; [|done].
  destruct Hready' as [Hg Hne Hk Hside [Hsq Hpos] Harr].
  split; try done. split; [done|].
  intros i r Hi. rewrite (Hpos i r Hi). unfold positionCell, moved.
  cbn [node_x node_y].
  destruct (Hin r) as [-> ->]; [|done].
  apply list_elem_of_lookup. eauto.
Qed.

Lemma jadd_of_nat (a b : nat) : jadd (of_nat a) (of_nat b) = of_nat (a + b).
Proof.
  unfold jadd, of_nat, of_Z. apply fin_inject_Z.
  rewrite Nat2Z.inj_add, inject_Z_plus. reflexivity.
Qed.

Lemma computeNextPositions_forget_speed (w : World) :
  computeNextPositions (forget_speed w)
  = forget_speed <$> computeNextPositions w.
Proof.
  unfold computeNextPositions, forget_speed. cbn [this store draws _kernel
    _positionsMatrix _graph].
  destruct (_kernel (this w)) as [k|]; [|done].
  destruct (run_kernel _ _) as [pos|]; [|done].
  cbn [mbind result_bind _graph]. 
  destruct (write_back _ _ _) as [h|]; done.
Qed.

Lemma ticks_forget_speed (n : nat) :
  forall w, ticks n (forget_speed w) = forget_speed <$> ticks n w.
Proof.
  induction n as [|n IH]; intros w; cbn [ticks]; [done|].
  rewrite computeNextPositions_forget_speed.
  destruct (computeNextPositions w) as [w'|]; [|done].
  apply IH.
Qed.

(** ** Reading the encoding back *)

Lemma read_from_cells (adj : matrix) (A : nat) (cells : list cell) :
  forall row col,
    col < A ->
    (forall t c, cells !! t = Some c ->
                 cell_at A adj (row * A + col + t) = Some c) ->
    read_from adj A row col (length cells) = Some cells.
Proof.
  induction cells as [|c cells IH]; intros row col Hcol Hcells;
    cbn [read_from length]; [done|].
  rewrite (cell_at_row_col A adj row col Hcol).
  rewrite <- (Nat.add_0_r (row * A + col)), (Hcells 0 c) by done.
  cbn [mbind option_bind].
  destruct (Nat.ltb_spec (S col) A) as [Hlt|Hge].
  - rewrite (IH row (S col)); [done|lia|].
    intros t c' Ht. replace (row * A + S col + t) with (row * A + col + S t)
      by lia. by apply Hcells.
  - rewrite (IH (S row) 0); [done|lia|].
    intros t c' Ht. replace (S row * A + 0 + t) with (row * A + col + S t)
      by lia. by apply Hcells.
Qed.

Lemma links_run (h : heap) (l : list ref) (i : nat) (r : ref) (t : nat) :
  l !! i = Some r ->
  t < length (neighbours (h r)) ->
  links h l !! (run_start h l i + t) = neighbours (h r) !! t.
Proof.
  intros Hi Ht. unfold run_start.
  pose proof (f_equal (links h) (take_drop_middle l i r Hi)) as H.
  rewrite <- H, links_app, links_cons.
  rewrite lookup_app_r by lia.
  replace (length (links h (take i l)) + t - length (links h (take i l)))
    with t by lia.
  by rewrite lookup_app_l.
Qed.

Lemma run_start_0 (h : heap) (l : list ref) : run_start h l 0 = 0.
Proof. unfold run_start. by rewrite take_0. Qed.

Lemma run_start_S (h : heap) (l : list ref) (i : nat) (r : ref) :
  l !! i = Some r ->
  run_start h l (S i) = run_start h l i + degree h r.
Proof.
  intros Hi. unfold run_start, degree.
  rewrite (take_S_r l i r Hi), links_app, length_app.
  unfold links at 2. simpl. by rewrite app_nil_r.
Qed.

Lemma run_start_all (h : heap) (l : list ref) :
  run_start h l (length l) = length (links h l).
Proof. unfold run_start. by rewrite firstn_all. Qed.

Lemma run_fits (h : heap) (l : list ref) (i : nat) (r : ref) :
  l !! i = Some r ->
  run_start h l i + degree h r <= length (links h l).
Proof.
  intros Hi. unfold run_start, degree.
  pose proof (f_equal (fun x => length (links h x))
                (take_drop_middle l i r Hi)) as H.
  cbn beta in H. rewrite links_app, links_cons, !length_app in H. lia.
Qed.

Lemma length_links_sum (h : heap) (l : list ref) :
  length (links h l) = sum_list (map (degree h) l).
Proof.
  induction l as [|r l IH]; [done|].
  rewrite links_cons, length_app, IH. done.
Qed.

Lemma indexOf_from_found (l : list ref) (item : ref) :
  forall a, item ∈ l ->
    exists j, indexOf_from a l item = Z.of_nat (a + j) /\ l !! j = Some item.
Proof.
  induction l as [|r l IH]; intros a Hin.
  - by apply not_elem_of_nil in Hin.
  - cbn [indexOf_from]. destruct (decide (r = item)) as [->|Hne].
    + exists 0. by rewrite Nat.add_0_r.
    + apply elem_of_cons in Hin as [->|Hin]; [done|].
      destruct (IH (S a) Hin) as (j & Hj & Hl).
      exists (S j). split; [|done]. rewrite Hj. f_equal. lia.
Qed.

Lemma indexOf_from_missing (l : list ref) (item : ref) :
  forall a, item ∉ l -> indexOf_from a l item = (-1)%Z.
Proof.
  induction l as [|r l IH]; intros a Hin; cbn [indexOf_from]; [done|].
  apply not_elem_of_cons in Hin as [Hne Hin].
  destruct (decide (r = item)); [by subst|]. by apply IH.
Qed.

Lemma neighbourCoords_found (gn : list ref) (nb : ref) :
  nb ∈ gn ->
  exists j,
    gn !! j = Some nb
    /\ neighbourCoords gn (ceil_sqrt (length gn)) nb
       = Arr [of_nat (j / ceil_sqrt (length gn));
              of_nat (j mod ceil_sqrt (length gn))].
Proof.
  intros Hin. destruct (indexOf_from_found gn nb 0 Hin) as (j & Hj & Hl).
  exists j. split; [done|]. unfold neighbourCoords, indexOf.
  rewrite Hj. simpl Nat.add. fold (of_nat j).
  rewrite coordinates_of_nat; [done|].
  apply ceil_sqrt_pos. pose proof (lookup_lt_Some _ _ _ Hl). lia.
Qed.

Lemma neighbourCoords_not_fill (gn : list ref) (nb : ref) :
  nb ∈ gn -> neighbourCoords gn (ceil_sqrt (length gn)) nb <> fill 2.
Proof.
  intros Hin. destruct (neighbourCoords_found gn nb Hin) as (j & _ & ->).
  unfold fill. simpl. intros H. injection H as H _. lia.
Qed.

(** ** [setGraph] and the encoding *)

Lemma setGraph_nodes (random : nat -> Q) (w w' : World) (g : Graph) :
  setGraph random w g = Ok w' ->
  (forall r, neighbours (store w' r) = neighbours (store w r))
  /\ (forall r, r ∉ nodes g -> store w' r = store w r)
  /\ forall r, r ∈ nodes g ->
       isFixed (store w' r) = false
       /\ exists j,
            node_x (store w' r) = fresh_x (_width (this w)) (random j)
            /\ node_y (store w' r) = fresh_y (_height (this w)) (random (S j)).
Proof.
  intros Hrun.
  destruct (setGraph_encoded random w g) as (w1 & Hrun1 & Hstore & _).
  rewrite Hrun in Hrun1. injection Hrun1 as <-.
  pose proof (randomize_nodes_spec random (_width (this w)) (_height (this w))
                (nodes g) (store w) (draws w)) as Hspec.
  destruct (randomize_nodes random _ _ (nodes g) (store w) (draws w))
    as [h n]. cbn [fst] in Hstore. rewrite Hstore.
  destruct Hspec as (_ & Hout & Hnb & Hin). done.
Qed.

Lemma setGraph_agree (random : nat -> Q) (w1 w2 w1' w2' : World) (g : Graph) :
  this w2 = this w1 -> draws w2 = draws w1 ->
  (forall r, neighbours (store w2 r) = neighbours (store w1 r)) ->
  setGraph random w1 g = Ok w1' ->
  setGraph random w2 g = Ok w2' ->
  this w2' = this w1' /\ forall r, r ∈ nodes g -> store w2' r = store w1' r.
Proof.
  intros Hthis Hdraws Hnb Hrun1 Hrun2.
  destruct (setGraph_encoded random w1 g)
    as (x1 & Hx1 & Hs1 & _ & Hg1 & Hk1 & Hm1 & _ & F1).
  destruct (setGraph_encoded random w2 g)
    as (x2 & Hx2 & Hs2 & _ & Hg2 & Hk2 & Hm2 & _ & F2).
  rewrite Hrun1 in Hx1. injection Hx1 as <-.
  rewrite Hrun2 in Hx2. injection Hx2 as <-.
  rewrite Hthis, Hdraws in Hs2.
  assert (Hsame : forall r, r ∈ nodes g -> store w2' r = store w1' r).
  { intros r Hr. rewrite Hs1, Hs2.
    apply (randomize_nodes_agree random _ _ (nodes g) (store w2) (store w1)
             (draws w1) (fun _ => False)); [done|done|by right]. }
  split; [|done].
  rewrite (graph_matrices_ext (store w2') (store w1') g Hsame), Hm1 in Hm2.
  injection Hm2 as HN HA HP. rewrite Hthis in F2.
  destruct F1 as (? & ? & ? & ? & ? & ?).
  destruct F2 as (? & ? & ? & ? & ? & ?).
  destruct (this w1'), (this w2'). simpl in *. congruence.
Qed.

(** ** Displacement over successive ticks *)

Lemma fresh_x_fin (wd u : Q) : exists q, fresh_x (Fin wd) u = Fin q.
Proof. unfold fresh_x, jsub, jadd, jdiv, jmul, jneg. simpl. eauto. Qed.

Lemma setGraph_finite_x (random : nat -> Q) (w w' : World) (g : Graph)
    (wd : Q) :
  _width (this w) = Fin wd ->
  setGraph random w g = Ok w' ->
  finite_x g (store w').
Proof.
  intros Hwd Hrun r Hr.
  destruct (setGraph_nodes random w w' g Hrun) as (_ & _ & Hin).
  destruct (Hin r Hr) as (_ & j & Hx & _). rewrite Hx, Hwd.
  apply fresh_x_fin.
Qed.

Lemma tick_constant_stable (k : Kernel) :
  kernel_constant (tick_kernel (tick_kernel k))
  = kernel_constant (tick_kernel k).
Proof. reflexivity. Qed.

Lemma iter_tick_kernel (P n : nat) :
  Nat.iter n tick_kernel (mkKernel P (of_nat 3) None)
  = mkKernel P (of_nat (3 + 3 * n))
      (if n =? 0 then None else Some (of_nat 6)).
Proof.
  induction n as [|n IH]; [reflexivity|].
  cbn [Nat.iter nat_rect]. unfold Nat.iter in IH. rewrite IH.
  unfold tick_kernel. cbn [outputSize constants_speed compiled_speed].
  rewrite jadd_of_nat. replace (3 + 3 * n + 3) with (3 + 3 * S n) by lia.
  f_equal. destruct n as [|n]; reflexivity.
Qed.

Lemma tick_displacement (g : Graph) (k : Kernel) (d : nat) (w : World) :
  Ready g (store w) k w ->
  finite_x g (store w) ->
  kernel_constant (tick_kernel k) = of_nat d ->
  exists w',
    computeNextPositions w = Ok w'
    /\ Ready g (store w') (tick_kernel k) w'
    /\ finite_x g (store w')
    /\ forall r, r ∈ nodes g ->
         exists q q', node_x (store w r) = Fin q
                      /\ node_x (store w' r) = Fin q'
                      /\ (q' - q == inject_Z (Z.of_nat d))%Q.
Proof.
  intros Hready Hfin Hd.
  destruct (tick_synced g k w Hready)
    as (w' & Hrun & Hready' & Hin & _).
  rewrite Hd in Hin.
  assert (Hmove : forall r, r ∈ nodes g ->
            exists q q', node_x (store w r) = Fin q
                         /\ node_x (store w' r) = Fin q'
                         /\ (q' - q == inject_Z (Z.of_nat d))%Q).
  { intros r Hr. destruct (Hfin r Hr) as [q Hq].
    destruct (Hin r Hr) as [Hx _]. rewrite Hq in Hx.
    exists q, (Qred (q + inject_Z (Z.of_nat d))).
    split; [done|]. split; [done|]. rewrite Qred_correct. ring. }
  exists w'. split; [done|]. split; [done|]. split; [|done].
  intros r Hr. destruct (Hmove r Hr) as (q & q' & _ & Hq' & _). eauto.
Qed.

Lemma ticks_finite_x (g : Graph) (d : nat) (n : nat) :
  forall (k : Kernel) (w : World),
    Ready g (store w) k w ->
    finite_x g (store w) ->
    kernel_constant (tick_kernel k) = of_nat d ->
    exists w',
      ticks n w = Ok w'
      /\ Ready g (store w') (Nat.iter n tick_kernel k) w'
      /\ finite_x g (store w')
      /\ kernel_constant (tick_kernel (Nat.iter n tick_kernel k)) = of_nat d.
Proof.
  induction n as [|n IH]; intros k w Hready Hfin Hd; cbn [ticks].
  - by exists w.
  - destruct (tick_displacement g k d w Hready Hfin Hd)
      as (w1 & -> & Hready1 & Hfin1 & _).
    cbn [mbind result_bind].
    destruct (IH (tick_kernel k) w1 Hready1 Hfin1)
      as (w' & Hrun & Hready' & Hfin' & Hd'); [done|].
    exists w'. rewrite Nat.iter_succ_r. done.
Qed.

Lemma ticks_same_but_speed (n : nat) (w1 w2 : World) :
  forget_speed w1 = forget_speed w2 ->
  forget_speed <$> ticks n w1 = forget_speed <$> ticks n w2.
Proof. intros H. by rewrite <- !ticks_forget_speed, H. Qed.

Lemma ticks_after_setGraph (random : nat -> Q) (w w0 : World) (g : Graph)
    (wd : Q) (n : nat) :
  nodes g <> [] -> _width (this w) = Fin wd ->
  setGraph random w g = Ok w0 ->
  exists wn wn',
    ticks n w0 = Ok wn /\ computeNextPositions wn = Ok wn'
    /\ _kernel (this wn)
       = Some (mkKernel (nodesMatrixSize g) (of_nat (3 + 3 * n))
                 (if n =? 0 then None else Some (of_nat 6)))
    /\ forall r, r ∈ nodes g ->
         exists q q', node_x (store wn r) = Fin q
                      /\ node_x (store wn' r) = Fin q'
                      /\ (q' - q == 6)%Q.
Proof.
  intros Hne Hwd Hrun.
  destruct (setGraph_ready random w g Hne) as (w0' & Hrun' & Hready).
  rewrite Hrun in Hrun'. injection Hrun' as <-.
  pose proof (setGraph_finite_x random w w0 g wd Hwd Hrun) as Hfin.
  destruct (ticks_finite_x g 6 n _ w0 Hready Hfin eq_refl)
    as (wn & Hn & Hreadyn & Hfinn & Hd).
  destruct (tick_displacement g _ 6 wn Hreadyn Hfinn Hd)
    as (wn' & Htick & _ & _ & Hmove).
  exists wn, wn'. split; [done|]. split; [done|]. split.
  - rewrite (ready_kernel _ _ _ _ Hreadyn). f_equal. apply iter_tick_kernel.
  - intros r Hr. destruct (Hmove r Hr) as (q & q' & Hq & Hq' & Hdq).
    exists q, q'. split; [done|]. split; [done|]. by rewrite Hdq.
Qed.

(** * The claims *)

(** C1: on a graph of one node without neighbours, where the force law
    leaves the node at rest, the first tick moves the node from
    (400, 300) to (406, 300.1). *)
Theorem isolated_node_is_displaced :
  exists w0 w1,
    new halves lone_store 0 lone (of_nat 800) (of_nat 600) = Ok w0
    /\ neighbours (store w0 0) = [] /\ isFixed (store w0 0) = false
    /\ node_x (store w0 0) = of_nat 400 /\ node_y (store w0 0) = of_nat 300
    /\ computeNextPositions w0 = Ok w1
    /\ node_x (store w1 0) = of_nat 406 /\ node_y (store w1 0) = Fin 300.1
    /\ node_x (store w1 0) <> node_x (store w0 0)
    /\ node_y (store w1 0) <> node_y (store w0 0).
Proof.
  eexists. eexists.
  split; [vm_compute; reflexivity|].
  do 4 (split; [reflexivity|]).
  split; [vm_compute; reflexivity|].
  do 2 (split; [reflexivity|]).
  split; vm_compute; discriminate.
Qed.

(** C2: a node flagged fixed after [setGraph] keeps its flag but not its
    position: one tick moves it from (400, 300) to (406, 300.1). *)
Theorem fixed_node_is_displaced :
  exists w0 w1,
    new halves lone_store 0 lone (of_nat 800) (of_nat 600) = Ok w0
    /\ isFixed (store (pin w0 0) 0) = true
    /\ node_x (store (pin w0 0) 0) = of_nat 400
    /\ node_y (store (pin w0 0) 0) = of_nat 300
    /\ computeNextPositions (pin w0 0) = Ok w1
    /\ isFixed (store w1 0) = true
    /\ node_x (store w1 0) = of_nat 406 /\ node_y (store w1 0) = Fin 300.1
    /\ node_x (store w1 0) <> node_x (store (pin w0 0) 0)
    /\ node_y (store w1 0) <> node_y (store (pin w0 0) 0).
Proof.
  eexists. eexists.
  split; [vm_compute; reflexivity|].
  do 3 (split; [reflexivity|]).
  split; [vm_compute; reflexivity|].
  do 3 (split; [reflexivity|]).
  split; vm_compute; discriminate.
Qed.

(** C3: encoding a graph and then running the write-back loop on the
    untouched position grid gives every node of the graph its exact
    original (x, y) back; the store as a whole is left as it was. *)
Theorem encode_decode_identity (h : heap) (g : Graph) (r : ref) :
  r ∈ nodes g ->
  exists st h',
    graph_matrices h g = Ok st
    /\ write_back (Some g) (positionsGrid st) h = Ok h'
    /\ node_x (h' r) = node_x (h r)
    /\ node_y (h' r) = node_y (h r)
    /\ forall r', h' r' = h r'.
Proof.
  intros Hr. destruct (graph_matrices_encoded h g) as (st & Hst & Henc).
  assert (Hne : nodes g <> []).
  { intros E. rewrite E in Hr. by apply not_elem_of_nil in Hr. }
  assert (Hholds : holds_positions g (positionsGrid st) h).
  { split; [apply (enc_positions_square _ _ _ Henc)|].
    apply (enc_position _ _ _ Henc). }
  destruct (write_back_positions g (positionsGrid st) h h Hne Hholds)
    as (h' & Hwb & Hin & Hout & Hrest).
  exists st, h'. split; [done|]. split; [done|].
  destruct (Hin r Hr) as [Hx Hy]. split; [done|]. split; [done|].
  intros r'. destruct (decide (r' ∈ nodes g)) as [Hr'|Hr']; [|by apply Hout].
  destruct (Hin r' Hr') as [Hx' Hy']. destruct (Hrest r') as [Hf Hn].
  destruct (h' r'), (h r'). simpl in *. congruence.
Qed.

Lemma encode_decode_identity_witness :
  1 ∈ nodes star
  /\ exists st h',
       graph_matrices star_store star = Ok st
       /\ write_back (Some star) (positionsGrid st) star_store = Ok h'
       /\ node_x (h' 1) = node_x (star_store 1)
       /\ node_y (h' 1) = node_y (star_store 1)
       /\ forall r', h' r' = star_store r'.
Proof.
  assert (H : 1 ∈ nodes star) by (apply list_elem_of_In; simpl; auto).
  split; [exact H|]. exact (encode_decode_identity star_store star 1 H).
Defined.

(** C4: in the encoding of any graph the node-index cell of every node
    records the node's true neighbour count and the cursor value at which
    the node was visited; these starts are the running sums of the
    degrees, so the runs follow one another without overlap or gap; the
    final cursor is the sum of the degrees; the adjacency cells of linear
    index below it hold one directed link each, in visiting order, and
    all later cells keep the fill.  When every neighbour is a node of the
    graph, the cells that differ from the fill are exactly that prefix. *)
Theorem degree_accounting (h : heap) (g : Graph) :
  exists st,
    graph_matrices h g = Ok st
    /\ (forall i r, nodes g !! i = Some r ->
          exists adjX adjY,
            cell_at (nodesMatrixSize g) (nodesGrid st) i
            = Some (Arr [adjX; adjY; of_nat (length (neighbours (h r)))])
            /\ (adjX, adjY)
               = _indexToMatrixCoordinates
                   (of_nat (run_start h (nodes g) i))
                   (of_nat (adjacencyMatrixSize h g))
                   (of_nat (adjacencyMatrixSize h g)))
    /\ run_start h (nodes g) 0 = 0
    /\ (forall i r, nodes g !! i = Some r ->
          run_start h (nodes g) (S i)
          = run_start h (nodes g) i + length (neighbours (h r)))
    /\ cursor st = sum_list (map (degree h) (nodes g))
    /\ (forall k, k < cursor st ->
          exists nb,
            links h (nodes g) !! k = Some nb
            /\ cell_at (adjacencyMatrixSize h g) (adjacencyGrid st) k
               = Some (neighbourCoords (nodes g) (nodesMatrixSize g) nb))
    /\ (forall k,
          cursor st <= k < adjacencyMatrixSize h g * adjacencyMatrixSize h g ->
          cell_at (adjacencyMatrixSize h g) (adjacencyGrid st) k
          = Some (fill 2))
    /\ (closed_graph h g ->
        forall k, k < adjacencyMatrixSize h g * adjacencyMatrixSize h g ->
          cell_at (adjacencyMatrixSize h g) (adjacencyGrid st) k
            <> Some (fill 2)
          <-> k < cursor st).
Proof.
  destruct (graph_matrices_encoded h g) as (st & Hst & Henc).
  pose proof (enc_cursor _ _ _ Henc) as Hcur.
  exists st. split; [done|].
  split; [|split; [|split; [|split; [|split; [|split]]]]].
  - intros i r Hi. rewrite (enc_node _ _ _ Henc i r Hi). unfold nodeCell.
    destruct (_indexToMatrixCoordinates _ _ _) as [adjX adjY].
    by exists adjX, adjY.
  - apply run_start_0.
  - intros i r Hi. by apply run_start_S.
  - rewrite Hcur. apply length_links_sum.
  - intros k Hk. rewrite Hcur in Hk.
    destruct (lookup_lt_is_Some_2 _ _ Hk) as [nb Hnb].
    exists nb. split; [done|]. by apply (enc_link _ _ _ Henc).
  - intros k Hk. rewrite Hcur in Hk. by apply (enc_link_pad _ _ _ Henc).
  - intros Hclosed k Hk. rewrite Hcur.
    destruct (decide (k < length (links h (nodes g)))) as [Hlt|Hge].
    + split; [done|]. intros _.
      destruct (lookup_lt_is_Some_2 _ _ Hlt) as [nb Hnb].
      rewrite (enc_link _ _ _ Henc k nb Hnb). intros Heq.
      apply (neighbourCoords_not_fill (nodes g) nb);
        [|by apply (inj Some) in Heq].
      apply Hclosed. apply list_elem_of_lookup. eauto.
    + split; [|done]. intros Hne. exfalso. apply Hne.
      apply (enc_link_pad _ _ _ Henc). lia.
Qed.

Lemma degree_accounting_witness :
  closed_graph star_store star
  /\ exists st,
       graph_matrices star_store star = Ok st
       /\ cursor st = 4
       /\ cell_at 2 (nodesGrid st) 0 = Some (Arr [of_nat 0; of_nat 0; of_nat 2])
       /\ cell_at 2 (nodesGrid st) 2 = Some (Arr [of_nat 1; of_nat 1; of_nat 1])
       /\ (cell_at 2 (adjacencyGrid st) 3 <> Some (fill 2) <-> 3 < cursor st).
Proof.
  assert (Hclosed : closed_graph star_store star).
  { intros nb Hnb. apply list_elem_of_In. apply list_elem_of_In in Hnb.
    simpl in *. tauto. }
  split; [exact Hclosed|].
  destruct (degree_accounting star_store star)
    as (st & Hst & Hnode & _ & _ & Hcur & _ & _ & Hfill).
  exists st. split; [exact Hst|]. split; [exact Hcur|].
  vm_compute in Hst. injection Hst as <-.
  split; [reflexivity|]. split; [reflexivity|].
  apply (Hfill Hclosed 3). vm_compute. lia.
Defined.

(** C5, as the code has it: in a call that supplies a record, a rest
    length or speed that is zero, [NaN], [undefined] or [null] (any falsy
    value) keeps the prior value, and a negative one is stored; each of
    the four options is merged on its own, by [option || prior]; such a
    call never fails, whereas a call without a record throws. *)
Theorem setProperties_keeps_prior_on_zero_only (a : Algo) (p : Properties)
    (q : Q) :
  setProperties_call a (Some p) = Ok (setProperties a p)
  /\ setProperties_call a None = Throw TypeError
  /\ (speed p = VNum (Fin q) -> (q == 0)%Q ->
      _speed (setProperties a p) = _speed a)
  /\ (speed p = VNum (Fin q) -> (q < 0)%Q ->
      _speed (setProperties a p) = VNum (Fin q))
  /\ (springRestLength p = VNum (Fin q) -> (q == 0)%Q ->
      _springRestLength (setProperties a p) = _springRestLength a)
  /\ (springRestLength p = VNum (Fin q) -> (q < 0)%Q ->
      _springRestLength (setProperties a p) = VNum (Fin q))
  /\ (forall v, v ∈ [VNum NaN; VUndefined; VNull] ->
        (speed p = v -> _speed (setProperties a p) = _speed a)
        /\ (springRestLength p = v ->
            _springRestLength (setProperties a p) = _springRestLength a))
  /\ (truthy (speed p) = false -> _speed (setProperties a p) = _speed a)
  /\ (truthy (springRestLength p) = false ->
      _springRestLength (setProperties a p) = _springRestLength a)
  /\ _speed (setProperties a p) = jsor (speed p) (_speed a)
  /\ _springRestLength (setProperties a p)
     = jsor (springRestLength p) (_springRestLength a)
  /\ _springDampening (setProperties a p)
     = jsor (springDampening p) (_springDampening a)
  /\ _charge (setProperties a p) = jsor (charge p) (_charge a).
Proof.
  assert (Hzero : (q == 0)%Q -> Qis_zero q = true).
  { unfold Qeq, Qis_zero. simpl. intros H. apply Z.eqb_eq. lia. }
  assert (Hneg : (q < 0)%Q -> Qis_zero q = false).
  { unfold Qlt, Qis_zero. simpl. intros H. apply Z.eqb_neq. lia. }
  split; [done|]. split; [done|].
  unfold setProperties, jsor. cbn [_speed _springRestLength _springDampening
    _charge].
  do 4 (split; [intros -> Hq; simpl; by rewrite ?(Hzero Hq), ?(Hneg Hq)|]).
  split.
  { intros v Hv. apply list_elem_of_In in Hv. simpl in Hv.
    destruct Hv as [<-|[<-|[<-|[]]]]; split; by intros ->. }
  split; [by intros ->|]. split; [by intros ->|]. done.
Qed.

Lemma setProperties_keeps_prior_on_zero_only_witness :
  let p0 := mkProperties (VNum (Fin 0)) VUndefined (VNum (Fin 0)) VUndefined in
  let p1 := mkProperties (VNum (Fin (-2))) VUndefined (VNum (Fin (-2)))
              VUndefined in
  let p2 := mkProperties (VNum NaN) VUndefined VNull VUndefined in
  speed p0 = VNum (Fin 0) /\ (0 == 0)%Q
  /\ speed p1 = VNum (Fin (-2)) /\ (-2 < 0)%Q
  /\ (VNum NaN ∈ [VNum NaN; VUndefined; VNull])
  /\ truthy (springRestLength p2) = false
  /\ _speed (setProperties blank p0) = _speed blank
  /\ _springRestLength (setProperties blank p0) = _springRestLength blank
  /\ _speed (setProperties blank p1) = VNum (Fin (-2))
  /\ _springRestLength (setProperties blank p1) = VNum (Fin (-2))
  /\ _speed (setProperties blank p2) = _speed blank
  /\ _springRestLength (setProperties blank p2) = _springRestLength blank.
Proof.
  intros p0 p1 p2.
  assert (H0 : (0 == 0)%Q) by reflexivity.
  assert (H2 : (-2 < 0)%Q) by reflexivity.
  assert (Hn : VNum NaN ∈ [VNum NaN; VUndefined; VNull])
    by apply list_elem_of_here.
  destruct (setProperties_keeps_prior_on_zero_only blank p0 0)
    as (_ & _ & A1 & _ & A3 & _).
  destruct (setProperties_keeps_prior_on_zero_only blank p1 (-2))
    as (_ & _ & _ & B2 & _ & B4 & _).
  destruct (setProperties_keeps_prior_on_zero_only blank p2 0)
    as (_ & _ & _ & _ & _ & _ & C1 & _ & C3 & _).
  split; [reflexivity|]. split; [exact H0|].
  split; [reflexivity|]. split; [exact H2|].
  split; [exact Hn|]. split; [reflexivity|].
  split; [exact (A1 eq_refl H0)|]. split; [exact (A3 eq_refl H0)|].
  split; [exact (B2 eq_refl H2)|]. split; [exact (B4 eq_refl H2)|].
  split; [exact (proj1 (C1 (VNum NaN) Hn) eq_refl)|].
  exact (C3 eq_refl).
Defined.

(** C5 as stated fails: a speed of [-1] is non-positive, yet
    [setProperties] stores it in place of the prior speed. *)
Lemma negative_speed_is_stored :
  let p := mkProperties (VNum (Fin (-1))) VUndefined VUndefined VUndefined in
  (-1 <= 0)%Q
  /\ _speed (setProperties blank p) = VNum (Fin (-1))
  /\ _speed (setProperties blank p) <> _speed blank.
Proof.
  intros p. split; [discriminate|]. split; [reflexivity|].
  vm_compute. discriminate.
Qed.

(** C6: [setProperties({charge: 500})] changes the charge only; more
    generally an option that is absent or falsy leaves the current value
    of its parameter unchanged, and no call touches the graph, the canvas
    size, the grids or the kernel. *)
Theorem partial_config_merge (a : Algo) (p : Properties) :
  setProperties a
    (mkProperties VUndefined VUndefined VUndefined (VNum (of_nat 500)))
  = mkAlgo (_graph a) (_width a) (_height a)
      (_speed a) (_springRestLength a) (_springDampening a)
      (VNum (of_nat 500))
      (_positionsMatrix a) (_adjacencyMatrix a) (_nodesMatrix a) (_kernel a)
  /\ (forall v,
        let a' := setProperties a
                    (mkProperties VUndefined VUndefined VUndefined v) in
        _speed a' = _speed a
        /\ _springDampening a' = _springDampening a
        /\ _springRestLength a' = _springRestLength a
        /\ _charge a' = jsor v (_charge a))
  /\ (truthy (speed p) = false -> _speed (setProperties a p) = _speed a)
  /\ (truthy (springDampening p) = false ->
      _springDampening (setProperties a p) = _springDampening a)
  /\ (truthy (springRestLength p) = false ->
      _springRestLength (setProperties a p) = _springRestLength a)
  /\ (truthy (charge p) = false -> _charge (setProperties a p) = _charge a)
  /\ _graph (setProperties a p) = _graph a
  /\ _width (setProperties a p) = _width a
  /\ _height (setProperties a p) = _height a
  /\ _positionsMatrix (setProperties a p) = _positionsMatrix a
  /\ _adjacencyMatrix (setProperties a p) = _adjacencyMatrix a
  /\ _nodesMatrix (setProperties a p) = _nodesMatrix a
  /\ _kernel (setProperties a p) = _kernel a.
Proof.
  split; [reflexivity|]. split; [by intros v|].
  unfold setProperties, jsor. cbn [_speed _springDampening _springRestLength
    _charge _graph _width _height _positionsMatrix _adjacencyMatrix
    _nodesMatrix _kernel].
  repeat split; intros ->; reflexivity.
Qed.

Lemma partial_config_merge_witness :
  let p := mkProperties (VNum (of_nat 0)) VUndefined (VNum NaN) VNull in
  truthy (speed p) = false /\ truthy (springDampening p) = false
  /\ truthy (springRestLength p) = false /\ truthy (charge p) = false
  /\ _speed (setProperties blank p) = _speed blank
  /\ _springDampening (setProperties blank p) = _springDampening blank
  /\ _springRestLength (setProperties blank p) = _springRestLength blank
  /\ _charge (setProperties blank p) = _charge blank.
Proof.
  intros p.
  destruct (partial_config_merge blank p) as (_ & _ & H1 & H2 & H3 & H4 & _).
  do 4 (split; [reflexivity|]).
  split; [exact (H1 eq_refl)|]. split; [exact (H2 eq_refl)|].
  split; [exact (H3 eq_refl)|]. exact (H4 eq_refl).
Defined.

(** C7: for the empty graph the encoder yields three 0 x 0 grids
    (P = 0), but the tick that follows does not return: the call of the
    kernel, whose output is empty, throws. *)
Theorem empty_graph_tick_throws (random : nat -> Q) (w : World) :
  nodesMatrixSize (mkGraph []) = 0
  /\ exists w',
       setGraph random w (mkGraph []) = Ok w'
       /\ _positionsMatrix (this w') = []
       /\ _nodesMatrix (this w') = []
       /\ _adjacencyMatrix (this w') = []
       /\ store w' = store w
       /\ computeNextPositions w' = Throw LibraryError.
Proof.
  split; [reflexivity|]. eexists. split; [reflexivity|].
  repeat split.
Qed.

(** C8: with P = ceil(sqrt(N)), the node of linear index [i] has its
    position and its node-index entry at cell (floor(i / P), i mod P) of
    the two grids, and [degree] sequential row-major reads of the
    adjacency grid from the recorded (adjRow, adjCol) return, in order,
    the stored coordinates of the node's neighbours; each neighbour that
    is a node of the graph is stored as the coordinates
    (floor(j / P), j mod P) of an index [j] at which the graph holds it. *)
Theorem neighbour_runs_recoverable (h : heap) (g : Graph) :
  let N := length (nodes g) in
  let P := nodesMatrixSize g in
  let A := adjacencyMatrixSize h g in
  N <= P * P /\ (0 < N -> (P - 1) * (P - 1) < N)
  /\ exists st,
       graph_matrices h g = Ok st
       /\ forall i r, nodes g !! i = Some r ->
            positionsGrid st !! (i / P) ≫= (fun row => row !! (i mod P))
            = Some (Arr [node_x (h r); node_y (h r)])
            /\ exists adjRow adjCol,
                 nodesGrid st !! (i / P) ≫= (fun row => row !! (i mod P))
                 = Some (Arr [adjRow; adjCol; of_nat (degree h r)])
                 /\ read_run (adjacencyGrid st) A adjRow adjCol (degree h r)
                    = Some (map (neighbourCoords (nodes g) P)
                              (neighbours (h r)))
                 /\ forall nb, nb ∈ neighbours (h r) -> nb ∈ nodes g ->
                      exists j,
                        nodes g !! j = Some nb
                        /\ neighbourCoords (nodes g) P nb
                           = Arr [of_nat (j / P); of_nat (j mod P)].
Proof.
  intros N P A. split; [apply ceil_sqrt_le|]. split; [apply ceil_sqrt_least|].
  destruct (graph_matrices_encoded h g) as (st & Hst & Henc).
  exists st. split; [done|]. intros i r Hi.
  split; [apply (enc_position _ _ _ Henc i r Hi)|].
  pose proof (enc_node _ _ _ Henc i r Hi) as Hcell.
  unfold cell_at in Hcell. fold P A in Hcell. unfold nodeCell in Hcell.
  pose proof (run_fits h (nodes g) i r Hi) as Hfit.
  pose proof (links_fit h g) as HE. fold A in HE.
  set (s := run_start h (nodes g) i) in *.
  destruct (_indexToMatrixCoordinates (of_nat s) (of_nat A) (of_nat A))
    as [adjRow adjCol] eqn:Hcoords.
  exists adjRow, adjCol. split; [done|]. split.
  - unfold read_run. destruct (degree h r) as [|d] eqn:Hd.
    + unfold degree in Hd. apply length_zero_iff_nil in Hd. by rewrite Hd.
    + assert (HA : 0 < A) by (destruct A; lia).
      rewrite (coordinates_of_nat s A HA) in Hcoords.
      injection Hcoords as <- <-. rewrite !to_index_of_nat.
      cbn [mbind option_bind]. rewrite <- Hd.
      replace (degree h r)
        with (length (map (neighbourCoords (nodes g) P) (neighbours (h r))))
        by apply length_map.
      apply read_from_cells; [by apply linear_col_lt|].
      intros t c Ht. rewrite <- (linear_split A s HA).
      rewrite list_lookup_fmap in Ht.
      destruct (neighbours (h r) !! t) as [nb|] eqn:Hnb; [|done].
      injection Ht as <-.
      apply (enc_link _ _ _ Henc). fold P.
      rewrite <- Hnb. apply links_run; [done|].
      by apply (lookup_lt_Some _ _ _ Hnb).
  - intros nb _ Hnb. by apply neighbourCoords_found.
Qed.

Lemma neighbour_runs_recoverable_witness :
  nodes star !! 0 = Some 0
  /\ 1 ∈ neighbours (star_store 0) /\ 1 ∈ nodes star
  /\ exists st adjRow adjCol,
       graph_matrices star_store star = Ok st
       /\ nodesGrid st !! (0 / 2) ≫= (fun row => row !! (0 mod 2))
          = Some (Arr [adjRow; adjCol; of_nat 2])
       /\ read_run (adjacencyGrid st) 2 adjRow adjCol 2
          = Some [Arr [of_nat 0; of_nat 1]; Arr [of_nat 1; of_nat 0]]
       /\ exists j,
            nodes star !! j = Some 1
            /\ neighbourCoords (nodes star) 2 1
               = Arr [of_nat (j / 2); of_nat (j mod 2)].
Proof.
  assert (H0 : nodes star !! 0 = Some 0) by reflexivity.
  assert (H1 : 1 ∈ neighbours (star_store 0))
    by (apply list_elem_of_In; simpl; auto).
  assert (H2 : 1 ∈ nodes star) by (apply list_elem_of_In; simpl; auto).
  split; [exact H0|]. split; [exact H1|]. split; [exact H2|].
  destruct (neighbour_runs_recoverable star_store star)
    as (_ & _ & st & Hst & Hall).
  destruct (Hall 0 0 H0) as (_ & adjRow & adjCol & Hcell & Hread & Hnb).
  exists st, adjRow, adjCol. split; [exact Hst|].
  split; [exact Hcell|]. split; [exact Hread|]. exact (Hnb 1 H1 H2).
Defined.

(** C9: whatever positions and fixed flags the nodes carry, [setGraph]
    clears the flag of every node of the graph and gives it a position
    within 50 of the canvas centre on each axis; the position grid holds
    these new positions, and the engine state and the nodes of the graph
    come out the same from any two stores that agree on the neighbour
    lists. *)
Theorem setGraph_discards_node_state (random : nat -> Q) (w : World)
    (g : Graph) (wd ht : Q) :
  _width (this w) = Fin wd -> _height (this w) = Fin ht ->
  (forall n, (0 <= random n < 1)%Q) ->
  exists w',
    setGraph random w g = Ok w'
    /\ (forall r, r ∈ nodes g ->
          isFixed (store w' r) = false
          /\ exists qx qy,
               node_x (store w' r) = Fin qx /\ node_y (store w' r) = Fin qy
               /\ (wd / 2 - 50 <= qx < wd / 2 + 50)%Q
               /\ (ht / 2 - 50 <= qy < ht / 2 + 50)%Q)
    /\ (forall i r, nodes g !! i = Some r ->
          cell_at (nodesMatrixSize g) (_positionsMatrix (this w')) i
          = Some (Arr [node_x (store w' r); node_y (store w' r)]))
    /\ forall w2,
         this w2 = this w -> draws w2 = draws w ->
         (forall r, neighbours (store w2 r) = neighbours (store w r)) ->
         exists w2',
           setGraph random w2 g = Ok w2'
           /\ this w2' = this w'
           /\ forall r, r ∈ nodes g -> store w2' r = store w' r.
Proof.
  intros Hwd Hht Hrandom.
  destruct (setGraph_encoded random w g)
    as (w' & Hrun & _ & _ & _ & _ & _ & Henc & _).
  exists w'. split; [done|]. split; [|split].
  - intros r Hr.
    destruct (setGraph_nodes random w w' g Hrun) as (_ & _ & Hin).
    destruct (Hin r Hr) as (Hfix & j & Hx & Hy). split; [done|].
    rewrite Hwd in Hx. rewrite Hht in Hy.
    destruct (fresh_x_bounds wd (random j) (Hrandom j)) as (qx & Hqx & Hbx).
    destruct (fresh_y_bounds ht (random (S j)) (Hrandom (S j)))
      as (qy & Hqy & Hby).
    exists qx, qy. by rewrite Hx, Hy.
  - intros i r Hi. apply (enc_position _ _ _ Henc i r Hi).
  - intros w2 Hthis Hdraws Hnb.
    destruct (setGraph_encoded random w2 g) as (w2' & Hrun2 & _).
    exists w2'. split; [done|].
    by apply (setGraph_agree random w w2 w' w2' g).
Qed.

Lemma setGraph_discards_node_state_witness :
  _width (this (mkWorld star_store blank 0)) = Fin 800
  /\ _height (this (mkWorld star_store blank 0)) = Fin 600
  /\ (forall n, (0 <= halves n < 1)%Q)
  /\ exists w',
       setGraph halves (mkWorld star_store blank 0) star = Ok w'
       /\ isFixed (store w' 1) = false
       /\ exists qx qy,
            node_x (store w' 1) = Fin qx /\ node_y (store w' 1) = Fin qy
            /\ (800 / 2 - 50 <= qx < 800 / 2 + 50)%Q
            /\ (600 / 2 - 50 <= qy < 600 / 2 + 50)%Q.
Proof.
  assert (Hr : forall n, (0 <= halves n < 1)%Q)
    by (intros n; split; [discriminate|reflexivity]).
  assert (H1 : 1 ∈ nodes star) by (apply list_elem_of_In; simpl; auto).
  split; [reflexivity|]. split; [reflexivity|]. split; [exact Hr|].
  destruct (setGraph_discards_node_state halves (mkWorld star_store blank 0)
              star 800 600 eq_refl eq_refl Hr) as (w' & Hrun & Hin & _).
  exists w'. split; [exact Hrun|]. exact (Hin 1 H1).
Defined.




(** * Further properties *)

(** ** Fresh grids and coordinates *)

(** X1: a grid made by [_create3dMatrix] has [rows] rows; the cell at
    [(r, c)] exists exactly when [r < rows], [c < columns] and the depth
    is at least 1, and it is the default itself for depth 1 and an array
    of [depth] defaults otherwise. *)
Theorem create3dMatrix_cells (rows columns depth : nat) (d : jsnum)
    (r c : nat) :
  length (_create3dMatrix rows columns depth d) = rows
  /\ _create3dMatrix rows columns depth d !! r ≫= (fun row => row !! c)
     = if bool_decide (r < rows /\ c < columns /\ 1 <= depth)
       then Some (if depth =? 1 then Scalar d
                  else Arr (replicate depth d))
       else None.
Proof.
  unfold _create3dMatrix. split; [apply length_replicate|].
  case_bool_decide as H.
  - destruct H as (Hr & Hc & Hd). rewrite lookup_replicate_2 by done.
    cbn [mbind option_bind].
    destruct (Nat.eqb_spec depth 1); [by rewrite lookup_replicate_2|].
    destruct (Nat.ltb_spec 1 depth); [|lia].
    by rewrite lookup_replicate_2.
  - destruct (decide (r < rows)) as [Hr|Hr].
    + rewrite lookup_replicate_2 by done. cbn [mbind option_bind].
      destruct (Nat.eqb_spec depth 1);
        [apply lookup_replicate_None; lia|].
      destruct (Nat.ltb_spec 1 depth); [apply lookup_replicate_None; lia|].
      done.
    + rewrite (lookup_ge_None_2 _ r) by (rewrite length_replicate; lia).
      done.
Qed.

(** X2: for a natural index and positive [rows] and [columns],
    [_indexToMatrixCoordinates] returns the integer quotient by [rows]
    and the remainder by [columns]; with [rows = 0] the row is [NaN] for
    index 0 and [Infinity] for a positive index, and with [columns = 0]
    the column is [NaN]. *)
Theorem indexToMatrixCoordinates_values (i rows columns : nat) :
  (0 < rows -> 0 < columns ->
   _indexToMatrixCoordinates (of_nat i) (of_nat rows) (of_nat columns)
   = (of_nat (i / rows), of_nat (i mod columns)))
  /\ (_indexToMatrixCoordinates (of_nat i) (of_nat 0) (of_nat 0)
      = (if i =? 0 then NaN else PInf, NaN)).
Proof.
  split.
  - intros Hr Hc. unfold _indexToMatrixCoordinates.
    by rewrite jfloor_jdiv_of_nat, jrem_of_nat.
  - destruct i as [|i]; reflexivity.
Qed.

Lemma indexToMatrixCoordinates_values_witness :
  0 < 2 /\ 0 < 3
  /\ _indexToMatrixCoordinates (of_nat 5) (of_nat 2) (of_nat 3)
     = (of_nat 2, of_nat 2).
Proof.
  assert (H2 : 0 < 2) by lia. assert (H3 : 0 < 3) by lia.
  split; [exact H2|]. split; [exact H3|].
  exact (proj1 (indexToMatrixCoordinates_values 5 2 3) H2 H3).
Defined.

(** X3: on a square grid the index the write-back loop computes,
    [row * rows + col], inverts [_indexToMatrixCoordinates]: the
    coordinates of [row * s + col] are [(row, col)], and the coordinates
    [(r, c)] of any index [k] satisfy [c < s] and [r * s + c = k]. *)
Theorem coordinates_round_trip (s : nat) :
  0 < s ->
  (forall row col, col < s ->
     _indexToMatrixCoordinates (of_nat (row * s + col)) (of_nat s) (of_nat s)
     = (of_nat row, of_nat col))
  /\ forall k, exists r c,
       _indexToMatrixCoordinates (of_nat k) (of_nat s) (of_nat s)
       = (of_nat r, of_nat c)
       /\ c < s /\ r * s + c = k.
Proof.
  intros Hs. split.
  - intros row col Hcol. rewrite coordinates_of_nat by done.
    rewrite Nat.div_add_l, Nat.div_small, Nat.add_0_r by lia.
    by rewrite Nat.add_comm, Nat.Div0.mod_add, Nat.mod_small by lia.
  - intros k. exists (k / s), (k mod s).
    split; [by apply coordinates_of_nat|].
    split; [by apply linear_col_lt|]. symmetry. by apply linear_split.
Qed.

Lemma coordinates_round_trip_witness :
  0 < 3
  /\ _indexToMatrixCoordinates (of_nat (2 * 3 + 1)) (of_nat 3) (of_nat 3)
     = (of_nat 2, of_nat 1).
Proof.
  assert (H3 : 0 < 3) by lia. split; [exact H3|].
  apply (proj1 (coordinates_round_trip 3 H3) 2 1). lia.
Defined.

(** ** Edge cases of the encoder *)

Lemma coordinates_of_minus_one (s : nat) :
  2 <= s ->
  _indexToMatrixCoordinates (of_Z (-1)) (of_nat s) (of_nat s)
  = (of_Z (-1), of_Z (-1)).
Proof.
  intros Hs. unfold _indexToMatrixCoordinates.
  assert (Hdiv : ((-1) / Z.of_nat s = -1)%Z).
  { symmetry. apply (Z.div_unique (-1) (Z.of_nat s) (-1) (Z.of_nat s - 1));
      lia. }
  f_equal.
  - unfold jdiv, of_nat, of_Z. rewrite Qis_zero_of_nat.
    rewrite bool_decide_eq_false_2 by lia.
    unfold fin, jfloor, of_Z. f_equal.
    rewrite (Qfloor_comp _ _ (Qred_correct _)), <- Zdiv_Qdiv. by rewrite Hdiv.
  - unfold jrem, of_nat, of_Z. rewrite Qis_zero_of_nat.
    rewrite bool_decide_eq_false_2 by lia.
    apply fin_inject_Z.
    assert (Htrunc : Qtrunc (inject_Z (-1) / inject_Z (Z.of_nat s)) = 0%Z).
    { destruct (Z.of_nat s) as [|p|p] eqn:Hp; [lia| |lia].
      unfold Qtrunc, Qis_neg, Qceiling, Qfloor. simpl.
      rewrite Z.div_small by lia. done. }
    rewrite Htrunc. unfold Qeq. simpl. lia.
Qed.

Lemma neighbourCoords_missing (gn : list ref) (P : nat) (nb : ref) :
  nb ∉ gn -> 2 <= P -> neighbourCoords gn P nb = fill 2.
Proof.
  intros Hnb HP. unfold neighbourCoords, indexOf.
  rewrite (indexOf_from_missing gn nb 0 Hnb).
  by rewrite (coordinates_of_minus_one P HP).
Qed.

(** X4: when the grids have side at least 2, a neighbour that is not
    among [graph.nodes] ([indexOf] gives -1) is written to the adjacency
    grid as the pair [-1, -1], the same value as an unused cell. *)
Theorem absent_neighbour_stored_as_fill (h : heap) (g : Graph) :
  2 <= nodesMatrixSize g ->
  exists st,
    graph_matrices h g = Ok st
    /\ forall k nb,
         links h (nodes g) !! k = Some nb -> nb ∉ nodes g ->
         cell_at (adjacencyMatrixSize h g) (adjacencyGrid st) k
         = Some (Arr [of_Z (-1); of_Z (-1)])
         /\ cell_at (adjacencyMatrixSize h g) (adjacencyGrid st) k
            = Some (fill 2).
Proof.
  intros HP. destruct (graph_matrices_encoded h g) as (st & Hst & Henc).
  exists st. split; [done|]. intros k nb Hk Hnb.
  rewrite (enc_link _ _ _ Henc k nb Hk).
  by rewrite (neighbourCoords_missing (nodes g) _ nb Hnb HP).
Qed.

Lemma absent_neighbour_stored_as_fill_witness :
  2 <= nodesMatrixSize stray
  /\ links stray_store (nodes stray) !! 0 = Some 5 /\ (5 ∉ nodes stray)
  /\ exists st,
       graph_matrices stray_store stray = Ok st
       /\ cell_at (adjacencyMatrixSize stray_store stray)
            (adjacencyGrid st) 0
          = Some (Arr [of_Z (-1); of_Z (-1)]).
Proof.
  assert (HP : 2 <= nodesMatrixSize stray) by (vm_compute; lia).
  assert (H5 : 5 ∉ nodes stray).
  { intros H. apply list_elem_of_In in H. simpl in H.
    destruct H as [H|[H|[]]]; discriminate. }
  split; [exact HP|]. split; [reflexivity|]. split; [exact H5|].
  destruct (absent_neighbour_stored_as_fill stray_store stray HP)
    as (st & Hst & Hcells).
  exists st. split; [exact Hst|].
  exact (proj1 (Hcells 0 5 eq_refl H5)).
Defined.

Lemma links_nil (h : heap) (l : list ref) :
  (forall r, r ∈ l -> neighbours (h r) = []) -> links h l = [].
Proof.
  induction l as [|r l IH]; intros Hl; [done|].
  rewrite links_cons, (Hl r) by apply list_elem_of_here.
  apply IH. intros r' Hr'. apply Hl. by apply list_elem_of_further.
Qed.

(** X5: for a graph whose nodes have no neighbours the adjacency grid is
    empty (side 0) and the cursor stays 0; the start coordinates recorded
    for every node are then [NaN] (0 / 0 and 0 % 0), with degree 0. *)
Theorem edgeless_graph_records_nan (h : heap) (g : Graph) :
  (forall r, r ∈ nodes g -> neighbours (h r) = []) ->
  exists st,
    graph_matrices h g = Ok st
    /\ adjacencyMatrixSize h g = 0
    /\ adjacencyGrid st = []
    /\ cursor st = 0
    /\ forall i r, nodes g !! i = Some r ->
         cell_at (nodesMatrixSize g) (nodesGrid st) i
         = Some (Arr [NaN; NaN; of_nat 0]).
Proof.
  intros Hnone. destruct (graph_matrices_encoded h g) as (st & Hst & Henc).
  assert (HE : links h (nodes g) = []) by by apply links_nil.
  assert (HA : adjacencyMatrixSize h g = 0).
  { unfold adjacencyMatrixSize. by rewrite totalNumberOfEdges_links, HE. }
  exists st. split; [done|]. split; [done|]. split; [|split].
  - destruct (enc_adjacency_square _ _ _ Henc) as [Hlen _].
    rewrite HA in Hlen. by apply length_zero_iff_nil.
  - by rewrite (enc_cursor _ _ _ Henc), HE.
  - intros i r Hi. rewrite (enc_node _ _ _ Henc i r Hi), HA.
    unfold nodeCell, run_start, degree.
    rewrite (links_nil h (take i (nodes g))).
    + rewrite (Hnone r); [done|]. apply list_elem_of_lookup. eauto.
    + intros r' Hr'. apply Hnone.
      apply list_elem_of_lookup in Hr' as [j Hj].
      apply lookup_take_Some in Hj as [Hj _].
      apply list_elem_of_lookup. eauto.
Qed.

Lemma edgeless_graph_records_nan_witness :
  (forall r, r ∈ nodes lone -> neighbours (lone_store r) = [])
  /\ nodes lone !! 0 = Some 0
  /\ exists st,
       graph_matrices lone_store lone = Ok st
       /\ adjacencyGrid st = []
       /\ cell_at (nodesMatrixSize lone) (nodesGrid st) 0
          = Some (Arr [NaN; NaN; of_nat 0]).
Proof.
  assert (H : forall r, r ∈ nodes lone -> neighbours (lone_store r) = [])
    by reflexivity.
  split; [exact H|]. split; [reflexivity|].
  destruct (edgeless_graph_records_nan lone_store lone H)
    as (st & Hst & _ & Hadj & _ & Hcells).
  exists st. split; [exact Hst|]. split; [exact Hadj|].
  exact (Hcells 0 0 eq_refl).
Defined.

(** X6: the node-index and position grids are squares of side P and the
    adjacency grid a square of side A, the least side that holds the E
    directed links; every cell of the first two grids past the last node
    keeps the fill ([-1, -1, -1] and [-1, -1]). *)
Theorem grid_shapes_and_padding (h : heap) (g : Graph) :
  let N := length (nodes g) in
  let E := sum_list (map (degree h) (nodes g)) in
  let P := nodesMatrixSize g in
  let A := adjacencyMatrixSize h g in
  E <= A * A /\ (0 < E -> (A - 1) * (A - 1) < E)
  /\ exists st,
       graph_matrices h g = Ok st
       /\ length (nodesGrid st) = P
       /\ length (positionsGrid st) = P
       /\ length (adjacencyGrid st) = A
       /\ (forall row, row ∈ nodesGrid st -> length row = P)
       /\ (forall row, row ∈ positionsGrid st -> length row = P)
       /\ (forall row, row ∈ adjacencyGrid st -> length row = A)
       /\ forall k, N <= k < P * P ->
            nodesGrid st !! (k / P) ≫= (fun row => row !! (k mod P))
            = Some (Arr [of_Z (-1); of_Z (-1); of_Z (-1)])
            /\ positionsGrid st !! (k / P) ≫= (fun row => row !! (k mod P))
               = Some (Arr [of_Z (-1); of_Z (-1)]).
Proof.
  intros N E P A.
  assert (HE : E = totalNumberOfEdges h g).
  { unfold E. by rewrite totalNumberOfEdges_links, length_links_sum. }
  split; [rewrite HE; apply ceil_sqrt_le|].
  split; [rewrite HE; apply ceil_sqrt_least|].
  destruct (graph_matrices_encoded h g) as (st & Hst & Henc).
  destruct (enc_nodes_square _ _ _ Henc) as [HlenN HrowsN].
  destruct (enc_positions_square _ _ _ Henc) as [HlenP HrowsP].
  destruct (enc_adjacency_square _ _ _ Henc) as [HlenA HrowsA].
  exists st. do 4 (split; [done|]).
  split; [by apply Forall_forall|]. split; [by apply Forall_forall|].
  split; [by apply Forall_forall|].
  intros k Hk. split.
  - apply (enc_node_pad _ _ _ Henc k Hk).
  - apply (enc_position_pad _ _ _ Henc k Hk).
Qed.

Lemma grid_shapes_and_padding_witness :
  length (nodes star) <= 3 < nodesMatrixSize star * nodesMatrixSize star
  /\ exists st,
       graph_matrices star_store star = Ok st
       /\ nodesGrid st !! (3 / 2) ≫= (fun row => row !! (3 mod 2))
          = Some (Arr [of_Z (-1); of_Z (-1); of_Z (-1)])
       /\ positionsGrid st !! (3 / 2) ≫= (fun row => row !! (3 mod 2))
          = Some (Arr [of_Z (-1); of_Z (-1)]).
Proof.
  assert (H : length (nodes star) <= 3
              < nodesMatrixSize star * nodesMatrixSize star)
    by (vm_compute; lia).
  split; [exact H|].
  destruct (grid_shapes_and_padding star_store star)
    as (_ & _ & st & Hst & _ & _ & _ & _ & _ & _ & Hpad).
  exists st. split; [exact Hst|]. exact (Hpad 3 H).
Defined.

(** ** What a tick changes and what it keeps *)

Lemma foldR_preserves {A S : Type} (I : S -> Prop)
    (f : A -> S -> result S) (l : list A) :
  (forall a s s', f a s = Ok s' -> I s -> I s') ->
  forall s s', foldR f l s = Ok s' -> I s -> I s'.
Proof.
  intros Hstep. induction l as [|a l IH]; intros s s' Hrun Hs;
    cbn [foldR] in Hrun.
  - by injection Hrun as <-.
  - destruct (f a s) as [s1|e] eqn:Hf; [|done].
    cbn [mbind result_bind] in Hrun.
    apply (IH s1 s' Hrun). by apply (Hstep a s s1).
Qed.

Lemma write_back_cell_frame (g : Graph) (pos : matrix) (rows row col : nat)
    (h0 h h' : heap) :
  write_back_cell (Some g) pos rows row col h = Ok h' ->
  tick_frame g h0 h -> tick_frame g h0 h'.
Proof.
  unfold write_back_cell. intros Hrun [Hout Hrest].
  destruct (row * rows + col <? length (nodes g));
    [|by injection Hrun as <-].
  destruct (nodes g !! (row * rows + col)) as [r|] eqn:Hr; [|done].
  destruct (pos !! row ≫= _) as [[v|[|vx [|vy l]]]|]; try done.
  injection Hrun as <-. split.
  - intros r' Hr'. unfold heap_set. case_decide as Heq; [|by apply Hout].
    subst. exfalso. apply Hr'. apply list_elem_of_lookup. eauto.
  - intros r'. unfold heap_set. case_decide as Heq; [|by apply Hrest].
    subst. cbn [isFixed neighbours]. apply Hrest.
Qed.

Lemma write_back_frame (g : Graph) (pos : matrix) (h h' : heap) :
  write_back (Some g) pos h = Ok h' -> tick_frame g h h'.
Proof.
  unfold write_back. destruct (pos !! 0) as [row0|]; [|done].
  intros Hrun.
  refine (foldR_preserves (tick_frame g h) _ _ _ h h' Hrun _); [|by split].
  intros row h1 h2. cbv beta. apply (foldR_preserves (tick_frame g h)).
  intros col h3 h4. apply write_back_cell_frame.
Qed.

(** X8: a tick that returns changes nothing but the position grid, the
    kernel (its field [constants.speed] is 3 more, and the compiled
    constant is the one of the first call) and the coordinates of nodes
    of the graph:
    graph, canvas size, the four parameters, the node-index and adjacency
    grids and the count of random draws are as before, nodes outside the
    graph are untouched, and every node keeps its flag and its neighbour
    list. *)
Theorem tick_changes_positions_only (w w' : World) :
  computeNextPositions w = Ok w' ->
  _graph (this w') = _graph (this w)
  /\ _width (this w') = _width (this w)
  /\ _height (this w') = _height (this w)
  /\ _speed (this w') = _speed (this w)
  /\ _springRestLength (this w') = _springRestLength (this w)
  /\ _springDampening (this w') = _springDampening (this w)
  /\ _charge (this w') = _charge (this w)
  /\ _adjacencyMatrix (this w') = _adjacencyMatrix (this w)
  /\ _nodesMatrix (this w') = _nodesMatrix (this w)
  /\ draws w' = draws w
  /\ (exists k,
        _kernel (this w) = Some k
        /\ _kernel (this w')
           = Some (mkKernel (outputSize k)
                     (jadd (constants_speed k) (of_nat 3))
                     (Some (default (jadd (constants_speed k) (of_nat 3))
                              (compiled_speed k)))))
  /\ forall g, _graph (this w) = Some g ->
       (forall r, r ∉ nodes g -> store w' r = store w r)
       /\ forall r, isFixed (store w' r) = isFixed (store w r)
                    /\ neighbours (store w' r) = neighbours (store w r).
Proof.
  unfold computeNextPositions. intros Hrun.
  destruct (_kernel (this w)) as [k|] eqn:Hk; [|done].
  destruct (run_kernel _ _) as [pos|]; [|done].
  cbn [mbind result_bind _graph] in Hrun.
  destruct (write_back _ pos (store w)) as [h|] eqn:Hwb; [|done].
  injection Hrun as <-. cbn [this store draws _graph _width _height _speed
    _springRestLength _springDampening _charge _adjacencyMatrix _nodesMatrix
    _kernel].
  do 10 (split; [done|]). split; [by exists k|].
  intros g Hg. rewrite Hg in Hwb. apply (write_back_frame g pos _ _ Hwb).
Qed.

Lemma tick_changes_positions_only_witness :
  exists w w',
    new halves star_store 0 star (of_nat 800) (of_nat 600) = Ok w
    /\ computeNextPositions w = Ok w'
    /\ _nodesMatrix (this w') = _nodesMatrix (this w)
    /\ _adjacencyMatrix (this w') = _adjacencyMatrix (this w)
    /\ _charge (this w') = _charge (this w)
    /\ draws w' = draws w.
Proof.
  assert (Hne : nodes star <> []) by discriminate.
  destruct (setGraph_ready halves
              (mkWorld star_store (fresh_engine (of_nat 800) (of_nat 600)) 0)
              star Hne) as (w & Hw & Hready).
  destruct (tick_ready star (store w) _ w Hready) as (w' & Hrun & _).
  destruct (tick_changes_positions_only w w' Hrun)
    as (_ & _ & _ & _ & _ & _ & Hc & Ha & Hn & Hd & _).
  exists w, w'. split; [exact Hw|]. split; [exact Hrun|].
  split; [exact Hn|]. split; [exact Ha|]. split; [exact Hc|]. exact Hd.
Defined.

Lemma ticks_stay_ready (g : Graph) (n : nat) :
  forall (k : Kernel) (w : World),
    Ready g (store w) k w ->
    exists w',
      ticks n w = Ok w' /\ Ready g (store w') (Nat.iter n tick_kernel k) w'
      /\ forall r, isFixed (store w' r) = isFixed (store w r).
Proof.
  induction n as [|n IH]; intros k w Hready; cbn [ticks].
  - by exists w.
  - destruct (tick_synced g k w Hready)
      as (w1 & -> & Hready1 & _ & _ & Hrest).
    cbn [mbind result_bind].
    destruct (IH (tick_kernel k) w1 Hready1) as (w' & Hrun & Hready' & Hfix).
    exists w'. split; [done|]. split.
    + by rewrite Nat.iter_succ_r.
    + intros r. rewrite Hfix. apply Hrest.
Qed.

(** X9: after [setGraph] on a non-empty graph every number of ticks
    returns, and after each of them the position grid and the node
    objects agree: the cell of node [i] holds exactly the node's current
    (x, y); the flags [setGraph] cleared are still clear. *)
Theorem ticks_keep_grid_and_nodes_in_step (random : nat -> Q) (w w0 : World)
    (g : Graph) (n : nat) :
  nodes g <> [] ->
  setGraph random w g = Ok w0 ->
  exists wn,
    ticks n w0 = Ok wn
    /\ forall i r, nodes g !! i = Some r ->
         cell_at (nodesMatrixSize g) (_positionsMatrix (this wn)) i
         = Some (Arr [node_x (store wn r); node_y (store wn r)])
         /\ isFixed (store wn r) = false.
Proof.
  intros Hne Hrun.
  destruct (setGraph_ready random w g Hne) as (w0' & Hrun' & Hready).
  rewrite Hrun in Hrun'. injection Hrun' as <-.
  destruct (ticks_stay_ready g n _ w0 Hready) as (wn & Hn & Hreadyn & Hfix).
  exists wn. split; [done|]. intros i r Hi. split.
  - destruct (ready_positions _ _ _ _ Hreadyn) as [_ Hpos].
    apply (Hpos i r Hi).
  - rewrite Hfix.
    destruct (setGraph_nodes random w w0 g Hrun) as (_ & _ & Hin).
    apply Hin. apply list_elem_of_lookup. eauto.
Qed.

Lemma ticks_keep_grid_and_nodes_in_step_witness :
  nodes star <> []
  /\ exists w0 wn,
       setGraph halves (mkWorld star_store blank 0) star = Ok w0
       /\ ticks 3 w0 = Ok wn
       /\ cell_at (nodesMatrixSize star) (_positionsMatrix (this wn)) 2
          = Some (Arr [node_x (store wn 2); node_y (store wn 2)])
       /\ isFixed (store wn 2) = false.
Proof.
  assert (Hne : nodes star <> []) by discriminate.
  split; [exact Hne|].
  destruct (setGraph_encoded halves (mkWorld star_store blank 0) star)
    as (w0 & Hw0 & _).
  destruct (ticks_keep_grid_and_nodes_in_step halves _ w0 star 3 Hne Hw0)
    as (wn & Hn & Hcells).
  exists w0, wn. split; [exact Hw0|]. split; [exact Hn|].
  exact (Hcells 2 2 eq_refl).
Defined.

(** X7: the kernel runs on every cell, padding included: after
    [setGraph] the cells of the position grid past the last node hold the
    fill [-1, -1], and after the first tick they hold a pair whose first
    component is 5, no longer the fill. *)
Theorem padding_cells_are_displaced (random : nat -> Q) (w w0 : World)
    (g : Graph) :
  nodes g <> [] ->
  setGraph random w g = Ok w0 ->
  exists w1,
    computeNextPositions w0 = Ok w1
    /\ forall k,
         length (nodes g) <= k < nodesMatrixSize g * nodesMatrixSize g ->
         cell_at (nodesMatrixSize g) (_positionsMatrix (this w0)) k
         = Some (fill 2)
         /\ (exists y,
               cell_at (nodesMatrixSize g) (_positionsMatrix (this w1)) k
               = Some (Arr [of_nat 5; y]))
         /\ cell_at (nodesMatrixSize g) (_positionsMatrix (this w1)) k
            <> Some (fill 2).
Proof.
  intros Hne Hrun.
  destruct (setGraph_ready random w g Hne) as (w0' & Hrun' & Hready).
  rewrite Hrun in Hrun'. injection Hrun' as <-.
  destruct (setGraph_encoded random w g)
    as (w0' & Hrun' & _ & _ & _ & _ & _ & Henc & _).
  rewrite Hrun in Hrun'. injection Hrun' as <-.
  destruct (tick_ready g (store w0) _ w0 Hready)
    as (w1 & Htick & _ & Hcells & _).
  exists w1. split; [done|]. intros k Hk.
  pose proof (enc_position_pad _ _ _ Henc k Hk) as Hpad.
  cbn [grids_of positionsGrid] in Hpad. split; [done|].
  rewrite Hcells by lia. rewrite Hpad. split; [by eexists|done].
Qed.

Lemma padding_cells_are_displaced_witness :
  nodes star <> []
  /\ length (nodes star) <= 3 < nodesMatrixSize star * nodesMatrixSize star
  /\ exists w0 w1,
       setGraph halves (mkWorld star_store blank 0) star = Ok w0
       /\ computeNextPositions w0 = Ok w1
       /\ (exists y,
             cell_at (nodesMatrixSize star) (_positionsMatrix (this w1)) 3
             = Some (Arr [of_nat 5; y]))
       /\ cell_at (nodesMatrixSize star) (_positionsMatrix (this w1)) 3
          <> Some (fill 2).
Proof.
  assert (Hne : nodes star <> []) by discriminate.
  assert (H3 : length (nodes star) <= 3
               < nodesMatrixSize star * nodesMatrixSize star)
    by (vm_compute; lia).
  split; [exact Hne|]. split; [exact H3|].
  destruct (setGraph_encoded halves (mkWorld star_store blank 0) star)
    as (w0 & Hw0 & _).
  destruct (padding_cells_are_displaced halves _ w0 star Hne Hw0)
    as (w1 & Htick & Hcells).
  exists w0, w1. split; [exact Hw0|]. split; [exact Htick|].
  exact (proj2 (Hcells 3 H3)).
Defined.

(** ** Positions over a run of ticks *)

Lemma ticks_linear_x (g : Graph) (d : nat) (n : nat) :
  forall (k : Kernel) (w : World),
    Ready g (store w) k w ->
    finite_x g (store w) ->
    kernel_constant (tick_kernel k) = of_nat d ->
    exists w',
      ticks n w = Ok w'
      /\ forall r, r ∈ nodes g ->
           exists x x',
             node_x (store w r) = Fin x /\ node_x (store w' r) = Fin x'
             /\ (x' == x + inject_Z (Z.of_nat d) * inject_Z (Z.of_nat n))%Q.
Proof.
  induction n as [|n IH]; intros k w Hready Hfin Hd; cbn [ticks].
  - exists w. split; [done|]. intros r Hr.
    destruct (Hfin r Hr) as (x & Hx).
    exists x, x. do 2 (split; [done|]).
    change (inject_Z (Z.of_nat 0)) with 0%Q. ring.
  - destruct (tick_displacement g k d w Hready Hfin Hd)
      as (w1 & -> & Hready1 & Hfin1 & Hmove).
    cbn [mbind result_bind].
    destruct (IH (tick_kernel k) w1 Hready1 Hfin1 Hd) as (w' & Hrun & Hall).
    exists w'. split; [done|]. intros r Hr.
    destruct (Hmove r Hr) as (x & x1 & Hx & Hx1 & Ex1).
    destruct (Hall r Hr) as (y1 & x' & Hy1 & Hx' & Ex).
    rewrite Hx1 in Hy1. injection Hy1 as <-.
    exists x, x'. do 2 (split; [done|]).
    rewrite Nat2Z.inj_succ, <- Z.add_1_r, inject_Z_plus.
    change (inject_Z 1) with 1%Q. rewrite Ex.
    assert (E1 : (x1 == x + inject_Z (Z.of_nat d))%Q)
      by (rewrite <- Ex1; ring).
    rewrite E1. ring.
Qed.



Lemma tick_engine_determined (w1 w2 a b : World) :
  this w2 = this w1 ->
  computeNextPositions w1 = Ok a -> computeNextPositions w2 = Ok b ->
  this b = this a.
Proof.
  unfold computeNextPositions. intros ->.
  destruct (_kernel (this w1)) as [k|]; [|done].
  destruct (run_kernel _ _) as [pos|]; [|done].
  cbn [mbind result_bind]. intros Ha Hb.
  destruct (write_back _ pos (store w1)); [|done].
  destruct (write_back _ pos (store w2)); [|done].
  injection Ha as <-. by injection Hb as <-.
Qed.

(** X11: a tick computes from the position grid, not from the node
    objects: whatever coordinates and flags the nodes of the graph have
    been given since the last tick, the next tick leaves the engine and
    the coordinates of the nodes of the graph the same as if the store
    had not been touched. *)
Theorem tick_discards_edits_of_nodes (random : nat -> Q) (w w0 wn : World)
    (g : Graph) (n : nat) (edited : heap) :
  nodes g <> [] ->
  setGraph random w g = Ok w0 ->
  ticks n w0 = Ok wn ->
  exists a b,
    computeNextPositions wn = Ok a
    /\ computeNextPositions (mkWorld edited (this wn) (draws wn)) = Ok b
    /\ this b = this a
    /\ forall r, r ∈ nodes g ->
         node_x (store b r) = node_x (store a r)
         /\ node_y (store b r) = node_y (store a r).
Proof.
  intros Hne Hrun Hn.
  destruct (setGraph_ready random w g Hne) as (w0' & Hrun' & Hready).
  rewrite Hrun in Hrun'. injection Hrun' as <-.
  destruct (ticks_stay_ready g n _ w0 Hready) as (wn' & Hn' & Hreadyn & _).
  rewrite Hn in Hn'. injection Hn' as <-.
  set (k := Nat.iter n tick_kernel _) in *.
  assert (Hedited : Ready g (store wn) k (mkWorld edited (this wn) (draws wn))).
  { destruct Hreadyn. by split. }
  destruct (tick_ready g (store wn) k wn Hreadyn)
    as (a & Ha & _ & _ & Hina & _).
  destruct (tick_ready g (store wn) k _ Hedited)
    as (b & Hb & _ & _ & Hinb & _).
  exists a, b. split; [done|]. split; [done|]. split.
  - by apply (tick_engine_determined wn (mkWorld edited (this wn) (draws wn))).
  - intros r Hr. destruct (Hina r Hr) as [-> ->].
    by destruct (Hinb r Hr) as [-> ->].
Qed.

Lemma tick_discards_edits_of_nodes_witness :
  nodes star <> []
  /\ (1 ∈ nodes star)
  /\ exists w0 wn a b,
       setGraph halves (mkWorld star_store blank 0) star = Ok w0
       /\ ticks 2 w0 = Ok wn
       /\ computeNextPositions wn = Ok a
       /\ computeNextPositions (mkWorld star_store (this wn) (draws wn))
          = Ok b
       /\ node_x (store b 1) = node_x (store a 1)
       /\ node_y (store b 1) = node_y (store a 1).
Proof.
  assert (Hne : nodes star <> []) by discriminate.
  assert (H1 : 1 ∈ nodes star) by (apply list_elem_of_In; simpl; auto).
  split; [exact Hne|]. split; [exact H1|].
  destruct (setGraph_ready halves (mkWorld star_store blank 0) star Hne)
    as (w0 & Hw0 & Hready).
  destruct (ticks_stay_ready star 2 _ w0 Hready) as (wn & Hn & _).
  destruct (tick_discards_edits_of_nodes halves _ w0 wn star 2 star_store
              Hne Hw0 Hn) as (a & b & Ha & Hb & _ & Hsame).
  exists w0, wn, a, b. split; [exact Hw0|]. split; [exact Hn|].
  split; [exact Ha|]. split; [exact Hb|]. exact (Hsame 1 H1).
Defined.

(** ** [setGraph], the canvas size and the parameters *)

(** X12: [setGraph] returns for every world and every graph, the empty
    one included; it keeps the canvas size and the four parameters,
    installs the graph, builds a kernel, not yet compiled, whose output
    side is P and whose constant is 3 again, and makes exactly two random
    draws per node. *)
Theorem setGraph_always_returns (random : nat -> Q) (w : World) (g : Graph) :
  exists w',
    setGraph random w g = Ok w'
    /\ _graph (this w') = Some g
    /\ _kernel (this w')
       = Some (mkKernel (nodesMatrixSize g) (of_nat 3) None)
    /\ draws w' = draws w + 2 * length (nodes g)
    /\ _width (this w') = _width (this w)
    /\ _height (this w') = _height (this w)
    /\ _speed (this w') = _speed (this w)
    /\ _springRestLength (this w') = _springRestLength (this w)
    /\ _springDampening (this w') = _springDampening (this w)
    /\ _charge (this w') = _charge (this w).
Proof.
  destruct (setGraph_encoded random w g)
    as (w' & Hrun & _ & Hd & Hg & Hk & _ & _ & Hrest).
  exists w'. by repeat (split; [done|]).
Qed.

Lemma randomize_nodes_in_order (random : nat -> Q) (wd ht : jsnum)
    (todo : list ref) :
  forall (h : heap) (n : nat),
    NoDup todo ->
    forall i r, todo !! i = Some r ->
      node_x ((randomize_nodes random wd ht todo h n).1 r)
      = fresh_x wd (random (n + 2 * i))
      /\ node_y ((randomize_nodes random wd ht todo h n).1 r)
         = fresh_y ht (random (n + 2 * i + 1)).
Proof.
  induction todo as [|r0 rest IH]; intros h n Hnd i r Hi; [done|].
  apply NoDup_cons in Hnd as [Hfresh Hnd]. cbn [randomize_nodes].
  destruct i as [|i].
  - injection Hi as <-.
    pose proof (randomize_nodes_spec random wd ht rest
                  (heap_set h r0
                     (mkNode (fresh_x wd (random n))
                        (fresh_y ht (random (S n))) false
                        (neighbours (h r0)))) (S (S n))) as Hspec.
    destruct (randomize_nodes random wd ht rest _ (S (S n))) as [h' n'].
    destruct Hspec as (_ & Hout & _). cbn [fst]. rewrite (Hout r0 Hfresh).
    unfold heap_set. case_decide; [|done]. cbn [node_x node_y].
    by rewrite Nat.mul_0_r, Nat.add_0_r, Nat.add_1_r.
  - cbn [lookup list_lookup] in Hi.
    destruct (IH (heap_set h r0
                    (mkNode (fresh_x wd (random n))
                       (fresh_y ht (random (S n))) false
                       (neighbours (h r0)))) (S (S n)) Hnd i r Hi)
      as [Hx Hy].
    rewrite Hx, Hy. split; do 2 f_equal; lia.
Qed.

(** X13: when no node occurs twice in [graph.nodes], [setGraph] draws
    for the nodes in order: node [i] gets its x from draw [d + 2i] and
    its y from draw [d + 2i + 1], where [d] draws were made before. *)
Theorem setGraph_draws_in_order (random : nat -> Q) (w w' : World)
    (g : Graph) :
  NoDup (nodes g) ->
  setGraph random w g = Ok w' ->
  forall i r, nodes g !! i = Some r ->
    node_x (store w' r)
    = fresh_x (_width (this w)) (random (draws w + 2 * i))
    /\ node_y (store w' r)
       = fresh_y (_height (this w)) (random (draws w + 2 * i + 1)).
Proof.
  intros Hnd Hrun i r Hi.
  destruct (setGraph_encoded random w g) as (w1 & Hrun1 & Hstore & _).
  rewrite Hrun in Hrun1. injection Hrun1 as <-. rewrite Hstore.
  by apply randomize_nodes_in_order.
Qed.

Lemma setGraph_draws_in_order_witness :
  NoDup (nodes star) /\ nodes star !! 2 = Some 2
  /\ exists w',
       setGraph tenths (mkWorld star_store blank 0) star = Ok w'
       /\ node_x (store w' 2) = of_nat 390
       /\ node_y (store w' 2) = of_nat 300.
Proof.
  assert (Hnd : NoDup (nodes star)).
  { apply NoDup_ListNoDup. repeat constructor; simpl; intuition lia. }
  split; [exact Hnd|]. split; [reflexivity|].
  destruct (setGraph_encoded tenths (mkWorld star_store blank 0) star)
    as (w' & Hrun & _).
  exists w'. split; [exact Hrun|].
  exact (setGraph_draws_in_order _ _ w' star Hnd Hrun 2 2 eq_refl).
Defined.

Lemma resized_tick (width height : jsnum) (w : World) :
  computeNextPositions (resized width height w)
  = resized width height <$> computeNextPositions w.
Proof.
  unfold computeNextPositions, resized, onCanvasSizeChanged.
  cbn [this store draws _kernel _positionsMatrix _graph].
  destruct (_kernel (this w)) as [k|]; [|done].
  destruct (run_kernel _ _) as [pos|]; [|done].
  cbn [mbind result_bind _graph].
  destruct (write_back _ _ _) as [h|]; done.
Qed.

(** X14: [onCanvasSizeChanged] changes the two size fields only, so a
    tick after it gives the same store and grids as a tick before it;
    the new size takes effect at the next [setGraph], which places every
    node within 50 of the new centre on each axis. *)
Theorem canvas_size_matters_to_setGraph_only (random : nat -> Q) (w : World)
    (g : Graph) (wd ht : Q) :
  (forall n, (0 <= random n < 1)%Q) ->
  computeNextPositions (resized (Fin wd) (Fin ht) w)
  = resized (Fin wd) (Fin ht) <$> computeNextPositions w
  /\ exists w',
       setGraph random (resized (Fin wd) (Fin ht) w) g = Ok w'
       /\ forall r, r ∈ nodes g ->
            exists qx qy,
              node_x (store w' r) = Fin qx /\ node_y (store w' r) = Fin qy
              /\ (wd / 2 - 50 <= qx < wd / 2 + 50)%Q
              /\ (ht / 2 - 50 <= qy < ht / 2 + 50)%Q.
Proof.
  intros Hrandom. split; [apply resized_tick|].
  destruct (setGraph_encoded random (resized (Fin wd) (Fin ht) w) g)
    as (w' & Hrun & _).
  exists w'. split; [done|]. intros r Hr.
  destruct (setGraph_nodes random _ w' g Hrun) as (_ & _ & Hin).
  destruct (Hin r Hr) as (_ & j & Hx & Hy).
  cbn [resized this onCanvasSizeChanged _width _height] in Hx, Hy.
  destruct (fresh_x_bounds wd (random j) (Hrandom j)) as (qx & Hqx & Hbx).
  destruct (fresh_y_bounds ht (random (S j)) (Hrandom (S j)))
    as (qy & Hqy & Hby).
  exists qx, qy. by rewrite Hx, Hy.
Qed.

Lemma canvas_size_matters_to_setGraph_only_witness :
  (forall n, (0 <= halves n < 1)%Q)
  /\ (1 ∈ nodes star)
  /\ exists w' qx qy,
       setGraph halves
         (resized (Fin 1000) (Fin 400) (mkWorld star_store blank 0)) star
       = Ok w'
       /\ node_x (store w' 1) = Fin qx /\ node_y (store w' 1) = Fin qy
       /\ (1000 / 2 - 50 <= qx < 1000 / 2 + 50)%Q
       /\ (400 / 2 - 50 <= qy < 400 / 2 + 50)%Q.
Proof.
  assert (Hr : forall n, (0 <= halves n < 1)%Q)
    by (intros n; split; [discriminate|reflexivity]).
  assert (H1 : 1 ∈ nodes star) by (apply list_elem_of_In; simpl; auto).
  split; [exact Hr|]. split; [exact H1|].
  destruct (canvas_size_matters_to_setGraph_only halves
              (mkWorld star_store blank 0) star 1000 400 Hr)
    as (_ & w' & Hrun & Hin).
  destruct (Hin 1 H1) as (qx & qy & H).
  exists w', qx, qy. split; [exact Hrun|]. exact H.
Defined.

Lemma jsor_assoc (a b c : jsval) : jsor a (jsor b c) = jsor (jsor a b) c.
Proof. unfold jsor. destruct (truthy a) eqn:Ha; [by rewrite Ha|done]. Qed.

(** X15: two calls of [setProperties] in a row amount to one call with
    the two records merged, an option of the later call winning when it
    is truthy; repeating a call changes nothing more. *)
Theorem setProperties_composes (a : Algo) (p1 p2 : Properties) :
  setProperties (setProperties a p1) p2 = setProperties a (merged p1 p2)
  /\ setProperties (setProperties a p1) p1 = setProperties a p1.
Proof.
  unfold setProperties, merged. cbn [_graph _width _height _speed
    _springRestLength _springDampening _charge _positionsMatrix
    _adjacencyMatrix _nodesMatrix _kernel speed springDampening
    springRestLength charge].
  split.
  - by rewrite !jsor_assoc.
  - f_equal; unfold jsor; by destruct (truthy _) eqn:E; rewrite ?E.
Qed.

(** ** The structure grids *)

Lemma for_each_node_structure (h1 h2 : heap) (gn : list ref) (P A : nat)
    (todo : list ref) :
  (forall r, r ∈ todo -> neighbours (h1 r) = neighbours (h2 r)) ->
  forall i st1 st2 s1 s2,
    cursor st1 = cursor st2 -> nodesGrid st1 = nodesGrid st2 ->
    adjacencyGrid st1 = adjacencyGrid st2 ->
    for_each_node h1 gn P A i todo st1 = Ok s1 ->
    for_each_node h2 gn P A i todo st2 = Ok s2 ->
    cursor s1 = cursor s2 /\ nodesGrid s1 = nodesGrid s2
    /\ adjacencyGrid s1 = adjacencyGrid s2.
Proof.
  induction todo as [|r rest IH]; intros Hnb i st1 st2 s1 s2 Hc Hn Ha;
    cbn [for_each_node].
  - intros [= <-] [= <-]. done.
  - rewrite (Hnb r) by apply list_elem_of_here. rewrite Hc, Hn, Ha.
    destruct (_indexToMatrixCoordinates (of_nat (cursor st2)) _ _)
      as [adjX adjY].
    destruct (_indexToMatrixCoordinates (of_nat i) _ _) as [nodeX nodeY].
    destruct (matrix_set (nodesGrid st2) _ _ _) as [nm|]; [|done].
    cbn [mbind result_bind].
    destruct (matrix_set (positionsGrid st1) _ _ _) as [pm1|]; [|done].
    destruct (matrix_set (positionsGrid st2) _ _ _) as [pm2|];
      [|intros _; done].
    cbn [mbind result_bind].
    destruct (forEach_neighbour gn P A _ _ _) as [[next am]|]; [|done].
    cbn [mbind result_bind]. apply IH; try done.
    intros r' Hr'. apply Hnb. by apply list_elem_of_further.
Qed.

(** X16: the node-index grid, the adjacency grid and the final cursor
    depend on the order of the nodes and on their neighbour lists only:
    two stores that give the nodes of the graph the same neighbour lists
    give the same two grids, whatever the positions and flags. *)
Theorem structure_grids_ignore_positions (h1 h2 : heap) (g : Graph) :
  (forall r, r ∈ nodes g -> neighbours (h1 r) = neighbours (h2 r)) ->
  exists s1 s2,
    graph_matrices h1 g = Ok s1 /\ graph_matrices h2 g = Ok s2
    /\ cursor s1 = cursor s2
    /\ nodesGrid s1 = nodesGrid s2
    /\ adjacencyGrid s1 = adjacencyGrid s2.
Proof.
  intros Hnb.
  destruct (graph_matrices_encoded h1 g) as (s1 & Hs1 & _).
  destruct (graph_matrices_encoded h2 g) as (s2 & Hs2 & _).
  exists s1, s2. split; [done|]. split; [done|].
  unfold graph_matrices in Hs1, Hs2.
  assert (HA : adjacencyMatrixSize h1 g = adjacencyMatrixSize h2 g).
  { unfold adjacencyMatrixSize, totalNumberOfEdges. do 2 f_equal.
    apply map_ext_in. intros r Hr. rewrite (Hnb r); [done|].
    by apply list_elem_of_In. }
  rewrite HA in Hs1.
  by apply (for_each_node_structure h1 h2 (nodes g) _ _ (nodes g) Hnb
              0 _ _ s1 s2 eq_refl eq_refl eq_refl Hs1 Hs2).
Qed.

Lemma structure_grids_ignore_positions_witness :
  (forall r, r ∈ nodes star ->
     neighbours (star_store r)
     = neighbours (heap_set star_store 1
                     (mkNode (of_nat 77) NaN true [0]) r))
  /\ exists s1 s2,
       graph_matrices star_store star = Ok s1
       /\ graph_matrices
            (heap_set star_store 1 (mkNode (of_nat 77) NaN true [0])) star
          = Ok s2
       /\ nodesGrid s1 = nodesGrid s2
       /\ adjacencyGrid s1 = adjacencyGrid s2.
Proof.
  assert (H : forall r, r ∈ nodes star ->
                neighbours (star_store r)
                = neighbours (heap_set star_store 1
                                (mkNode (of_nat 77) NaN true [0]) r)).
  { intros r _. unfold heap_set. case_decide; [by subst|done]. }
  split; [exact H|].
  destruct (structure_grids_ignore_positions star_store _ star H)
    as (s1 & s2 & H1 & H2 & _ & Hn & Ha).
  exists s1, s2. split; [exact H1|]. split; [exact H2|].
  split; [exact Hn|exact Ha].
Defined.

(** ** [_clamp] *)

(** X17: for finite bounds with [min <= max], [_clamp] returns a value
    between the bounds: the value itself when it lies between them,
    [min] when it is below and [max] when it is above; a [NaN] value is
    returned as it is, whatever the bounds. *)
Theorem clamp_within_bounds (v lo hi : Q) :
  (lo <= hi)%Q ->
  (exists q, _clamp (Fin v) (Fin lo) (Fin hi) = Fin q
             /\ (lo <= q <= hi)%Q)
  /\ ((lo <= v <= hi)%Q -> _clamp (Fin v) (Fin lo) (Fin hi) = Fin v)
  /\ ((v < lo)%Q -> _clamp (Fin v) (Fin lo) (Fin hi) = Fin lo)
  /\ ((hi < v)%Q -> _clamp (Fin v) (Fin lo) (Fin hi) = Fin hi)
  /\ forall a b, _clamp NaN a b = NaN.
Proof.
  intros Hle. unfold _clamp, jlt.
  split; [|split; [|split; [|split]]].
  - destruct (Qlt_le_dec v lo); [exists lo; split; [done|lra]|].
    destruct (Qlt_le_dec hi v); [exists hi; split; [done|lra]|].
    exists v. split; [done|lra].
  - intros [H1 H2]. destruct (Qlt_le_dec v lo); [lra|].
    destruct (Qlt_le_dec hi v); [lra|done].
  - intros H. destruct (Qlt_le_dec v lo); [done|lra].
  - intros H. destruct (Qlt_le_dec v lo); [lra|].
    destruct (Qlt_le_dec hi v); [done|lra].
  - intros a b. by destruct a, b.
Qed.

Lemma clamp_within_bounds_witness :
  (0 <= 10)%Q /\ (0 <= 4 <= 10)%Q /\ (-3 < 0)%Q /\ (10 < 12)%Q
  /\ _clamp (Fin 4) (Fin 0) (Fin 10) = Fin 4
  /\ _clamp (Fin (-3)) (Fin 0) (Fin 10) = Fin 0
  /\ _clamp (Fin 12) (Fin 0) (Fin 10) = Fin 10.
Proof.
  assert (H0 : (0 <= 10)%Q) by discriminate.
  assert (H1 : (0 <= 4 <= 10)%Q) by (split; discriminate).
  assert (H2 : (-3 < 0)%Q) by reflexivity.
  assert (H3 : (10 < 12)%Q) by reflexivity.
  split; [exact H0|]. split; [exact H1|]. split; [exact H2|].
  split; [exact H3|].
  split; [exact (proj1 (proj2 (clamp_within_bounds 4 0 10 H0)) H1)|].
  split.
  - exact (proj1 (proj2 (proj2 (clamp_within_bounds (-3) 0 10 H0))) H2).
  - exact (proj1 (proj2 (proj2 (proj2 (clamp_within_bounds 12 0 10 H0)))) H3).
Defined.
